(** * chaos_monkey: the random stop/start driver of the integration tests

    A shallow embedding of [integration_test/scripts/chaos_monkey.py] and the
    properties of its control loop.

    The script is a [while True] loop over two local variables (the set of
    services it believes stopped and a flag telling whether a status listing
    is due).  Everything it does to the outside goes through four library
    calls: [random.random], [random.choice], [subprocess.call] and
    [time.sleep], plus [print].  The embedding threads a [world] through the
    code: the answers of the outside (random draws, exit codes) are read from
    it, and what the program does to the outside is appended to its log.

    The loop never ends by itself; [loop] cuts it after a given number of
    turns.  An exception ends the run with the world as it was when it was
    raised.  Two things that can end a run of the script are outside the
    model: an interrupt from the keyboard, which the script catches at top
    level, and a command that cannot be launched at all, for which
    [subprocess.call] raises instead of returning an exit code. *)

From Stdlib Require Import ZArith NArith QArith Qabs Ascii String Lia.
From stdpp Require Import base decidable option list sets gmap strings.

Local Open Scope string_scope.
Local Open Scope nat_scope.

Set Warnings "-clear-no-such-hyp".

(** ** Python values *)

(** A Python [float].  Every finite double is a rational number and the
    comparisons of the language compare these numbers exactly, so a finite
    float is carried by its value; [float('inf')], [float('-inf')] and
    [float('nan')], which [type=float] accepts on the command line, are kept
    apart.  Both zeros are [Finite 0]. *)
Inductive pyfloat : Type :=
  | Finite (q : Q)
  | PosInf
  | NegInf
  | NaN.

Definition Qlt_bool (a b : Q) : bool := negb (Qle_bool b a).

(** [x < y] on floats. *)
Definition float_lt (x y : pyfloat) : bool :=
  match x, y with
  | NaN, _ | _, NaN => false
  | Finite a, Finite b => Qlt_bool a b
  | Finite _, PosInf => true
  | Finite _, NegInf => false
  | PosInf, _ => false
  | NegInf, NegInf => false
  | NegInf, _ => true
  end.

(** The float [c] has the value [q]. *)
Definition float_is (c : pyfloat) (q : Q) : Prop :=
  match c with
  | Finite q' => (q' == q)%Q
  | _ => False
  end.

(** The exceptions the embedded code can raise. *)
Inductive exn : Type :=
  | IndexError      (* random.choice of an empty sequence *)
  | KeyError        (* set.remove of a missing element *)
  | ValueError      (* time.sleep of a negative length or of nan *)
  | OverflowError.  (* time.sleep of a length beyond its timestamp *)

(** ** The outside world *)

(** [DOCKER_BASE_COMMAND]: what [shlex.split] makes of the command line. *)
Definition DOCKER_BASE_COMMAND : list string :=
  ["docker-compose"; "-f"; "docker-compose-base.yml";
   "-f"; "docker-compose-regtest.yml"].

Definition ALL_SERVICES : gset string := {["node1"; "node2"; "node3"]}.

(** The arguments of [main]; also the namespace [parse_args] returns, whose
    attributes are passed to it by name. *)
Record Namespace : Type := {
  services : gset string;
  stopping_chance : pyfloat;
  starting_chance : pyfloat;
  sleep_time : pyfloat;
}.

(** What the program does to the outside, in order. *)
Inductive event : Type :=
  | PrintArgs (args : Namespace)           (* print("Starting chaos monkey with args", args) *)
  | PrintStarting (service : string)       (* print("Starting", service) *)
  | PrintStopping (service : string)       (* print("Stopping", service) *)
  | PrintPsStatus                          (* print("docker ps status:") *)
  | PrintSleeping (sleep_time : pyfloat)   (* print("Not doing anything ...") *)
  | Call (argv : list string)              (* subprocess.call(argv, cwd=ROOT_DIR) *)
  | Sleep (seconds : pyfloat).             (* time.sleep(seconds) *)

(** The world holds the answers of the outside and the log of the run.
    [draws k] is the [k]-th raw value the random generator hands out and
    [exit_codes k] the return code of the [k]-th external command; [drawn]
    and [called] count how many of each were consumed. *)
Record world : Type := World {
  draws : nat → N;
  drawn : nat;
  exit_codes : nat → Z;
  called : nat;
  output : list event;
}.

(** ** A state and exception monad over the world *)

Inductive outcome (A : Type) : Type :=
  | Ok (a : A)
  | Raise (e : exn).
Arguments Ok {A} a.
Arguments Raise {A} e.

Definition M (A : Type) : Type := world → outcome A * world.

Definition ret {A} (a : A) : M A := λ w, (Ok a, w).

Definition bind {A B} (m : M A) (k : A → M B) : M B :=
  λ w, match m w with
       | (Ok a, w') => k a w'
       | (Raise e, w') => (Raise e, w')
       end.

Notation "'do' x <- m ; k" := (bind m (λ x, k))
  (at level 10, x name, m at level 100, k at level 200,
   format "'[v' 'do'  x  <-  m ; '/' k ']'").

Definition raise {A} (e : exn) : M A := λ w, (Raise e, w).

Definition emit (e : event) : M unit :=
  λ w, (Ok tt, World (draws w) (drawn w) (exit_codes w) (called w)
                     (output w ++ [e])).

Definition next_draw : M N :=
  λ w, (Ok (draws w (drawn w)),
        World (draws w) (S (drawn w)) (exit_codes w) (called w) (output w)).

(** ** The library calls *)

(** [random.random()]: a float [k / 2^53] with [0 <= k < 2^53], the values
    the generator can return; which one is the world's choice. *)
Definition random_value (n : N) : pyfloat :=
  Finite (Z.of_N (n mod 2 ^ 53) # 2 ^ 53).

Definition random_random : M pyfloat :=
  do n <- next_draw; ret (random_value n).

(** [random.choice(seq)]: [IndexError] on an empty sequence, else the
    element at an index below [len(seq)] chosen by the world.  The code
    calls it on [list(s)] for a set [s], here [elements s]: the order of
    either list is arbitrary, and every member of the set is chosen for some
    draw. *)
Definition random_choice {A} (seq : list A) : M A :=
  match seq with
  | [] => raise IndexError
  | x :: _ =>
      do n <- next_draw;
      ret (nth (N.to_nat n mod length seq) seq x)
  end.

(** [subprocess.call(argv, cwd=ROOT_DIR)]: runs the command to its end and
    returns its exit code. *)
Definition subprocess_call (argv : list string) : M Z :=
  λ w, (Ok (exit_codes w (called w)),
        World (draws w) (drawn w) (exit_codes w) (S (called w))
              (output w ++ [Call argv])).

(** Whether the length [q], in seconds, does not fit the timestamp of
    [time.sleep], a signed 64-bit count of nanoseconds (CPython 3.11, 64-bit
    platform).  The length is multiplied by [1e9] in floating point, rounded
    away from zero and compared with [-2^63] and [2^63]; for a double this
    fails exactly when the product in the reals is beyond [2^63 + 1024] in
    absolute value, the midpoint between [2^63] and the next double. *)
Definition sleep_overflows (q : Q) : bool :=
  negb (Qle_bool (Qabs (q * inject_Z (10 ^ 9))) (inject_Z (2 ^ 63 + 1024))).

(** What [time.sleep] raises on the length [t], if anything.  It looks at
    the length in this order: nan is a [ValueError]; a length that does not
    fit the timestamp, in either direction and so also either infinity, is
    an [OverflowError]; a negative length is a [ValueError].  Otherwise the
    call is handed to the platform.  For a length in the last stretch of the
    range the call may still fail, depending on the platform and on what
    its clock reads when the call is made (the deadline, clock plus length,
    must fit as well); the model lets these lengths pass, so that it makes
    every turn that the program makes, and what is proved of runs that come
    to their end asks for [sleep_accepted] below. *)
Definition sleep_error (t : pyfloat) : option exn :=
  match t with
  | NaN => Some ValueError
  | PosInf | NegInf => Some OverflowError
  | Finite q =>
      if sleep_overflows q then Some OverflowError
      else if Qle_bool 0 q then None
      else Some ValueError
  end.

(** Lengths that [time.sleep] is sure to accept: not negative and at most
    [2^62] nanoseconds, which leaves the deadline in range as long as the
    monotonic clock of the platform reads less than [2^62] nanoseconds (146
    years). *)
Definition sleep_accepted (t : pyfloat) : Prop :=
  match t with
  | Finite q => (0 <= q)%Q ∧ (q * inject_Z (10 ^ 9) <= inject_Z (2 ^ 62))%Q
  | _ => False
  end.

(** [time.sleep(t)]. *)
Definition time_sleep (t : pyfloat) : M unit :=
  match sleep_error t with
  | None => emit (Sleep t)
  | Some e => raise e
  end.

(** [s.remove(x)] on a set: [KeyError] when [x] is not a member. *)
Definition set_remove (s : gset string) (x : string) : M (gset string) :=
  if bool_decide (x ∈ s) then ret (s ∖ {[x]}) else raise KeyError.

(** Truth value of a set: it is not empty. *)
Definition truthy (s : gset string) : bool := bool_decide (s ≠ ∅).

(** ** [main] *)

(** The local variables of [main] that live across the turns of its loop.
    [available_services] is computed anew in each turn. *)
Record locals : Type := Locals {
  stopped_services : gset string;
  print_ps : bool;
}.

(** Line 25. *)
Definition available_services (args : Namespace) (l : locals) : gset string :=
  services args ∖ stopped_services l.

(** [a and random.random() < chance]: the draw is made only when [a] holds. *)
Definition and_draw_below (a : bool) (chance : pyfloat) : M bool :=
  if a then do r <- random_random; ret (float_lt r chance) else ret false.

(** Lines 25-43: the start/stop decision. *)
Definition decide_action (args : Namespace) (l : locals) : M locals :=
  let available := available_services args l in
  do start <- and_draw_below (truthy (stopped_services l)) (starting_chance args);
  if start then
    do service <- random_choice (elements (stopped_services l));
    do stopped <- set_remove (stopped_services l) service;
    do _ <- emit (PrintStarting service);
    do _ <- subprocess_call (DOCKER_BASE_COMMAND ++ ["start"; service]);
    ret (Locals stopped true)
  else
    do stop <- and_draw_below (truthy available) (stopping_chance args);
    if stop then
      do service <- random_choice (elements available);
      let stopped := {[service]} ∪ stopped_services l in
      do _ <- emit (PrintStopping service);
      do _ <- subprocess_call (DOCKER_BASE_COMMAND ++ ["stop"; service]);
      ret (Locals stopped true)
    else ret l.

(** Lines 44-52: the status listing or the idle message. *)
Definition report (args : Namespace) (l : locals) : M locals :=
  if print_ps l then
    do _ <- emit PrintPsStatus;
    do _ <- subprocess_call (DOCKER_BASE_COMMAND ++ ["ps"]);
    ret (Locals (stopped_services l) false)
  else
    do _ <- emit (PrintSleeping (sleep_time args));
    ret l.

(** One turn of the [while True] loop, lines 25-53. *)
Definition iteration (args : Namespace) (l : locals) : M locals :=
  do l1 <- decide_action args l;
  do l2 <- report args l1;
  do _ <- time_sleep (sleep_time args);
  ret l2.

(** Lines 22-23. *)
Definition initial : locals := Locals ∅ true.

(** [n] turns of the loop from the locals [l]; an exception ends the run. *)
Fixpoint loop (args : Namespace) (n : nat) (l : locals) : M locals :=
  match n with
  | O => ret l
  | S n' => do l' <- iteration args l; loop args n' l'
  end.

(** [main(services, stopping_chance, starting_chance, sleep_time)], cut
    after [n] turns of its loop. *)
Definition main (args : Namespace) (n : nat) : M locals :=
  loop args n initial.

(** ** The command line *)

(** [str.isspace] on the code points below 256, which is what a character
    of [string] stands for here. *)
Definition isspace (c : ascii) : bool :=
  let n := nat_of_ascii c in
  ((9 <=? n)%nat && (n <=? 13)%nat) || ((28 <=? n)%nat && (n <=? 32)%nat)
  || (n =? 133)%nat || (n =? 160)%nat.

(** [s.split(sep)] for a separator of one character. *)
Fixpoint str_split (sep : ascii) (s : string) : list string :=
  match s with
  | EmptyString => [EmptyString]
  | String c s' =>
      if Ascii.eqb c sep then EmptyString :: str_split sep s'
      else match str_split sep s' with
           | piece :: pieces => String c piece :: pieces
           | [] => [String c EmptyString]
           end
  end.

Fixpoint str_lstrip (s : string) : string :=
  match s with
  | EmptyString => EmptyString
  | String c s' => if isspace c then str_lstrip s' else s
  end.

Fixpoint str_rstrip (s : string) : string :=
  match s with
  | EmptyString => EmptyString
  | String c s' =>
      match str_rstrip s' with
      | EmptyString => if isspace c then EmptyString else String c EmptyString
      | r => String c r
      end
  end.

(** [s.strip()]. *)
Definition str_strip (s : string) : string := str_rstrip (str_lstrip s).

(** The [type] of [--services], line 61. *)
Definition services_type (s : string) : gset string :=
  list_to_set (str_strip <$> str_split "," s).

(** The doubles the literals [0.1] and [0.3] denote. *)
Definition float_0_1 : pyfloat := Finite (7205759403792794 # 2 ^ 56).
Definition float_0_3 : pyfloat := Finite (5404319552844595 # 2 ^ 54).

(** The options found on the command line: [None] for an absent option,
    else its value, for the three numeric options after [float] accepted
    it. *)
Record command_line : Type := {
  opt_services : option string;
  opt_stopping_chance : option pyfloat;
  opt_starting_chance : option pyfloat;
  opt_sleep_time : option pyfloat;
}.

(** Lines 58-67: [type] is applied to a given value, an absent option takes
    its [default]. *)
Definition parse_args (cl : command_line) : Namespace :=
  {| services := from_option services_type ALL_SERVICES (opt_services cl);
     stopping_chance := default float_0_1 (opt_stopping_chance cl);
     starting_chance := default float_0_3 (opt_starting_chance cl);
     sleep_time := default (Finite 5) (opt_sleep_time cl) |}.

(** Lines 67-72: the body of the [try]. *)
Definition script (cl : command_line) (n : nat) : M locals :=
  let args := parse_args cl in
  do _ <- emit (PrintArgs args);
  main args n.

(** ** Reading the log *)

(** The world after [k] more draws, [c] more external commands and the
    events [evs]. *)
Definition advance (w : world) (k c : nat) (evs : list event) : world :=
  World (draws w) (k + drawn w) (exit_codes w) (c + called w) (output w ++ evs).

Definition start_command (service : string) : event :=
  Call (DOCKER_BASE_COMMAND ++ ["start"; service]).
Definition stop_command (service : string) : event :=
  Call (DOCKER_BASE_COMMAND ++ ["stop"; service]).
Definition ps_command : event := Call (DOCKER_BASE_COMMAND ++ ["ps"]).

(** The words of an external command after [DOCKER_BASE_COMMAND]. *)
Definition subcommand (e : event) : list string :=
  match e with
  | Call argv => drop (length DOCKER_BASE_COMMAND) argv
  | _ => []
  end.

Definition is_start (e : event) : bool :=
  match subcommand e with
  | [verb; _] => String.eqb verb "start"
  | _ => false
  end.

Definition is_stop (e : event) : bool :=
  match subcommand e with
  | [verb; _] => String.eqb verb "stop"
  | _ => false
  end.

Definition is_ps (e : event) : bool :=
  match subcommand e with
  | [verb] => String.eqb verb "ps"
  | _ => false
  end.

Definition is_idle_message (e : event) : bool :=
  match e with
  | PrintSleeping _ => true
  | _ => false
  end.

(** How many events of a log satisfy [p]. *)
Definition count (p : event → bool) (evs : list event) : nat :=
  length (List.filter p evs).

Definition starts (w : world) : nat := count is_start (output w).
Definition stops (w : world) : nat := count is_stop (output w).
Definition status_listings (w : world) : nat := count is_ps (output w).
Definition idle_messages (w : world) : nat := count is_idle_message (output w).

(** The tests of lines 26 and 35 as the world [w] answers them: the random
    draw of the second is the next one, after the draw of the first if that
    one was made. *)
Definition start_test (args : Namespace) (l : locals) (w : world) : bool :=
  truthy (stopped_services l)
  && float_lt (random_value (draws w (drawn w))) (starting_chance args).

Definition stop_test (args : Namespace) (l : locals) (w : world) : bool :=
  truthy (available_services args l)
  && float_lt
       (random_value
          (draws w ((if truthy (stopped_services l) then 1 else 0) + drawn w)))
       (stopping_chance args).

(** ** What the code is measured against *)

(** What lines 44-52 and line 53 add to the log. *)
Definition report_events (args : Namespace) (l : locals) : list event :=
  if print_ps l then [PrintPsStatus; ps_command]
  else [PrintSleeping (sleep_time args)].

Definition sleep_events (t : pyfloat) : list event :=
  match sleep_error t with
  | None => [Sleep t]
  | Some _ => []
  end.

(** How a turn of the loop that leaves the set [stopped] ends. *)
Definition finish (args : Namespace) (stopped : gset string) : outcome locals :=
  match sleep_error (sleep_time args) with
  | None => Ok (Locals stopped false)
  | Some e => Raise e
  end.

(** The three ways through lines 25-43. *)
Inductive decided (args : Namespace) (l : locals) (w : world) :
    outcome locals * world → Prop :=
  | decided_start (s : string) :
      start_test args l w = true →
      s ∈ stopped_services l →
      decided args l w
        (Ok (Locals (stopped_services l ∖ {[s]}) true),
         advance w 2 1 [PrintStarting s; start_command s])
  | decided_stop (s : string) :
      start_test args l w = false →
      stop_test args l w = true →
      s ∈ available_services args l →
      decided args l w
        (Ok (Locals ({[s]} ∪ stopped_services l) true),
         advance w (2 + (if truthy (stopped_services l) then 1 else 0)) 1
           [PrintStopping s; stop_command s])
  | decided_idle :
      start_test args l w = false →
      stop_test args l w = false →
      decided args l w
        (Ok l,
         advance w
           ((if truthy (available_services args l) then 1 else 0)
            + (if truthy (stopped_services l) then 1 else 0)) 0 []).

(** The three ways through one turn of the loop. *)
Inductive iterated (args : Namespace) (l : locals) (w : world) :
    outcome locals * world → Prop :=
  | iterated_start (s : string) :
      start_test args l w = true →
      s ∈ stopped_services l →
      iterated args l w
        (finish args (stopped_services l ∖ {[s]}),
         advance w 2 2
           ([PrintStarting s; start_command s; PrintPsStatus; ps_command]
            ++ sleep_events (sleep_time args)))
  | iterated_stop (s : string) :
      start_test args l w = false →
      stop_test args l w = true →
      s ∈ available_services args l →
      iterated args l w
        (finish args ({[s]} ∪ stopped_services l),
         advance w (2 + (if truthy (stopped_services l) then 1 else 0)) 2
           ([PrintStopping s; stop_command s; PrintPsStatus; ps_command]
            ++ sleep_events (sleep_time args)))
  | iterated_idle :
      start_test args l w = false →
      stop_test args l w = false →
      iterated args l w
        (finish args (stopped_services l),
         advance w
           ((if truthy (available_services args l) then 1 else 0)
            + (if truthy (stopped_services l) then 1 else 0))
           (if print_ps l then 1 else 0)
           (report_events args l ++ sleep_events (sleep_time args))).

(** The elements on which two sets differ. *)
Definition sym_diff (X Y : gset string) : gset string := (X ∖ Y) ∪ (Y ∖ X).

(** Two worlds that give the same random draws (and may differ in the exit
    codes of the commands and in what was logged so far). *)
Definition same_draws (w1 w2 : world) : Prop :=
  (∀ k, draws w1 k = draws w2 k) ∧ drawn w1 = drawn w2.

(** A piece of code whose result, and the draws it consumes, depend on the
    random draws only. *)
Definition draws_only {A} (m : M A) : Prop :=
  ∀ w1 w2, same_draws w1 w2 →
    (m w1).1 = (m w2).1 ∧ same_draws (m w1).2 (m w2).2.

(** [m / 2^e] is a double with the full mantissa [m] and no double is
    nearer to [x]: it is within half a unit in the last place. *)
Definition double_nearest (m : Z) (e : positive) (x : Q) : Prop :=
  (2 ^ 52 ≤ m < 2 ^ 53)%Z ∧ (Qabs ((m # 2 ^ e) - x) <= 1 # 2 ^ (e + 1))%Q.

Fixpoint all_space (s : string) : bool :=
  match s with
  | EmptyString => true
  | String c s' => isspace c && all_space s'
  end.

Definition starts_with_space (s : string) : bool :=
  match s with
  | EmptyString => false
  | String c _ => isspace c
  end.

Fixpoint ends_with_space (s : string) : bool :=
  match s with
  | EmptyString => false
  | String c EmptyString => isspace c
  | String _ s' => ends_with_space s'
  end.

Fixpoint has_char (c : ascii) (s : string) : bool :=
  match s with
  | EmptyString => false
  | String c' s' => Ascii.eqb c' c || has_char c s'
  end.

(** [sep.join(pieces)]. *)
Fixpoint str_join (sep : ascii) (pieces : list string) : string :=
  match pieces with
  | [] => EmptyString
  | [piece] => piece
  | piece :: pieces' => String.append piece (String sep (str_join sep pieces'))
  end.

(** ** The log of a run *)

Definition is_sleep (e : event) : bool :=
  match e with
  | Sleep _ => true
  | _ => false
  end.

Definition sleeps (w : world) : nat := count is_sleep (output w).

(** What has been logged between the world [w] and the later world [w']. *)
Definition logged_since (w w' : world) : list event :=
  drop (length (output w)) (output w').

(** The event is no external command, or it is the status command, or it
    starts or stops a service of [S]. *)
Definition within (S : gset string) (e : event) : Prop :=
  match e with
  | Call _ =>
      e = ps_command
      ∨ ∃ s, s ∈ S ∧ (e = start_command s ∨ e = stop_command s)
  | _ => True
  end.

(** What a logged event does to the set of stopped services, as the
    command it issues tells: a stop command adds its service, a start
    command takes it out. *)
Definition replay_event (stopped : gset string) (e : event) : gset string :=
  match subcommand e with
  | [verb; s] =>
      if String.eqb verb "start" then stopped ∖ {[s]}
      else if String.eqb verb "stop" then {[s]} ∪ stopped
      else stopped
  | _ => stopped
  end.

Definition replay (evs : list event) (stopped : gset string) : gset string :=
  foldl replay_event stopped evs.

(** Chances for which the test [random.random() < chance] has one answer
    whatever the draw. *)
Definition never_fires (c : pyfloat) : Prop :=
  match c with
  | Finite q => (q <= 0)%Q
  | NegInf | NaN => True
  | PosInf => False
  end.

Definition always_fires (c : pyfloat) : Prop :=
  match c with
  | Finite q => (1 <= q)%Q
  | PosInf => True
  | NegInf | NaN => False
  end.

(** Chances for which the test holds for some draw. *)
Definition may_fire (c : pyfloat) : Prop :=
  match c with
  | Finite q => (0 < q)%Q
  | PosInf => True
  | NegInf | NaN => False
  end.

(** Chances for which the test fails for some draw: the doubles below 1,
    of which [1 - 2^-53] is the largest. *)
Definition may_fail (c : pyfloat) : Prop :=
  match c with
  | Finite q => (q <= 1 - (1 # 2 ^ 53))%Q
  | NegInf | NaN => True
  | PosInf => False
  end.

(** A world that begins with the draws [ds] and has nothing logged. *)
Definition world_of_draws (ds : list N) : world :=
  World (λ k, nth k ds 0%N) 0 (λ _, 0%Z) 0 [].

(** The draws that the world [w] has in store begin with [ds]. *)
Definition tape_from (w : world) (ds : list N) : Prop :=
  ∀ j d, ds !! j = Some d → draws w (j + drawn w) = d.

(** Two worlds that give the same random draws and have the same log. *)
Definition same_draws_and_log (w1 w2 : world) : Prop :=
  same_draws w1 w2 ∧ output w1 = output w2.

(** A piece of code whose result, draws and log do not depend on the exit
    codes of the commands. *)
Definition exit_code_blind {A} (m : M A) : Prop :=
  ∀ w1 w2, same_draws_and_log w1 w2 →
    (m w1).1 = (m w2).1 ∧ same_draws_and_log (m w1).2 (m w2).2.

(** A name as [--services] yields them: no comma in it, no white space at
    either end. *)
Definition clean_name (x : string) : Prop :=
  has_char "," x = false
  ∧ starts_with_space x = false ∧ ends_with_space x = false.

(** ** Runs used as examples *)

Definition quiet_world : world := World (λ _, 0%N) 0 (λ _, 0%Z) 0 [].

Definition failing_world : world := World (λ _, 0%N) 0 (λ k, Z.of_nat k + 1)%Z 0 [].

Definition node1_only : Namespace :=
  {| services := {["node1"]}; stopping_chance := Finite 1;
     starting_chance := Finite 0; sleep_time := Finite 0 |}.

Definition restarting : Namespace :=
  {| services := {["node1"; "node2"]}; stopping_chance := Finite 1;
     starting_chance := Finite 1; sleep_time := Finite 0 |}.

Definition idle : Namespace :=
  {| services := ALL_SERVICES; stopping_chance := Finite 0;
     starting_chance := Finite 0; sleep_time := Finite 5 |}.


Definition stillborn : Namespace :=
  {| services := ALL_SERVICES; stopping_chance := NaN;
     starting_chance := PosInf; sleep_time := Finite 0 |}.

Definition relentless : Namespace :=
  {| services := ALL_SERVICES; stopping_chance := Finite 2;
     starting_chance := Finite (-1); sleep_time := Finite 0 |}.

Definition node1_stopped : locals := Locals {["node1"]} false.

Definition both_stopped : locals := Locals {["node1"; "node2"]} false.

Definition no_options : command_line :=
  {| opt_services := None; opt_stopping_chance := None;
     opt_starting_chance := None; opt_sleep_time := None |}.

Definition services_only : command_line :=
  {| opt_services := Some "node1, node3"; opt_stopping_chance := None;
     opt_starting_chance := None; opt_sleep_time := None |}.

Definition chances_only : command_line :=
  {| opt_services := None; opt_stopping_chance := Some (Finite 1);
     opt_starting_chance := Some (Finite 0); opt_sleep_time := None |}.

(** ** Floats and draws *)

Lemma Qlt_bool_true (a b : Q) : (a < b)%Q → Qlt_bool a b = true.
Proof.
  intros Hlt. unfold Qlt_bool.
  destruct (Qle_bool b a) eqn:Hle; [|done].
  apply Qle_bool_iff in Hle. exfalso. by apply (Qlt_not_le a b).
Qed.

Lemma Qlt_bool_false (a b : Q) : (b <= a)%Q → Qlt_bool a b = false.
Proof.
  intros Hle. unfold Qlt_bool.
  apply Qle_bool_iff in Hle. by rewrite Hle.
Qed.

(** [random.random()] lies in [[0, 1)]. *)
Lemma random_value_range (n : N) :
  ∃ q, random_value n = Finite q ∧ (0 <= q)%Q ∧ (q < 1)%Q.
Proof.
  eexists. split; [reflexivity|].
  assert (n mod 2 ^ 53 < 2 ^ 53)%N as Hlt by (by apply N.mod_upper_bound).
  unfold Qle, Qlt. simpl.
  change (Z.pos (2 ^ 53)) with (Z.of_N (2 ^ 53)).
  generalize dependent (n mod 2 ^ 53)%N. generalize (2 ^ 53)%N. lia.
Qed.

Lemma random_below_one (n : N) (c : pyfloat) :
  float_is c 1 → float_lt (random_value n) c = true.
Proof.
  destruct c as [q| | |]; simpl; try done. intros Hq.
  destruct (random_value_range n) as (r & Hr & _ & Hr1).
  unfold random_value in Hr. injection Hr as <-.
  apply Qlt_bool_true. by rewrite Hq.
Qed.

Lemma random_not_below_zero (n : N) (c : pyfloat) :
  float_is c 0 → float_lt (random_value n) c = false.
Proof.
  destruct c as [q| | |]; simpl; try done. intros Hq.
  destruct (random_value_range n) as (r & Hr & Hr0 & _).
  unfold random_value in Hr. injection Hr as <-.
  apply Qlt_bool_false. by rewrite Hq.
Qed.

(** ** The world along the code *)

Lemma advance_advance w k c evs k' c' evs' :
  advance (advance w k c evs) k' c' evs'
  = advance w (k' + k) (c' + c) (evs ++ evs').
Proof.
  unfold advance. simpl. f_equal; [lia | lia | by rewrite app_assoc].
Qed.

Lemma advance_nothing w : advance w 0 0 [] = w.
Proof. destruct w. unfold advance. simpl. by rewrite app_nil_r. Qed.

Lemma count_app p evs evs' : count p (evs ++ evs') = count p evs + count p evs'.
Proof. unfold count. by rewrite List.filter_app, List.length_app. Qed.

Lemma bind_run {A B} (m : M A) (k : A → M B) (w : world) :
  (do x <- m; k x) w
  = match m w with
    | (Ok a, w') => k a w'
    | (Raise e, w') => (Raise e, w')
    end.
Proof. reflexivity. Qed.

Lemma emit_run e w : emit e w = (Ok tt, advance w 0 0 [e]).
Proof. reflexivity. Qed.

Lemma subprocess_call_run argv w :
  subprocess_call argv w = (Ok (exit_codes w (called w)), advance w 0 1 [Call argv]).
Proof. reflexivity. Qed.

Lemma random_random_run w :
  random_random w = (Ok (random_value (draws w (drawn w))), advance w 1 0 []).
Proof.
  unfold random_random, bind, next_draw, ret, advance. simpl.
  by rewrite app_nil_r.
Qed.

Lemma and_draw_below_run a chance w :
  and_draw_below a chance w
  = (Ok (a && float_lt (random_value (draws w (drawn w))) chance),
     advance w (if a then 1 else 0) 0 []).
Proof.
  destruct a; simpl.
  - by rewrite bind_run, random_random_run.
  - by rewrite advance_nothing.
Qed.

Lemma random_choice_spec {A} (seq : list A) (w : world) :
  seq ≠ [] →
  ∃ x, x ∈ seq ∧ random_choice seq w = (Ok x, advance w 1 0 []).
Proof.
  destruct seq as [|a seq]; [done|]. intros _.
  exists (nth (N.to_nat (draws w (drawn w)) mod length (a :: seq)) (a :: seq) a).
  split.
  - apply list_elem_of_In, nth_In, Nat.mod_upper_bound. done.
  - unfold random_choice, bind, next_draw, ret, advance. simpl.
    by rewrite app_nil_r.
Qed.

Lemma set_remove_run s x w : x ∈ s → set_remove s x w = (Ok (s ∖ {[x]}), w).
Proof. intros Hx. unfold set_remove. by rewrite bool_decide_eq_true_2. Qed.

Lemma truthy_elements (s : gset string) : truthy s = true → elements s ≠ [].
Proof.
  unfold truthy. intros Hs%bool_decide_eq_true Hnil.
  apply Hs. apply elements_empty_inv in Hnil. by apply leibniz_equiv.
Qed.

Lemma decide_action_decided args l w : decided args l w (decide_action args l w).
Proof.
  unfold decide_action.
  rewrite bind_run, and_draw_below_run.
  fold (start_test args l w).
  destruct (start_test args l w) eqn:Hstart.
  - assert (truthy (stopped_services l) = true) as Hs
      by (unfold start_test in Hstart; by apply andb_true_iff in Hstart as [? _]).
    rewrite Hs.
    destruct (random_choice_spec (elements (stopped_services l)) (advance w 1 0 []))
      as (s & Hin & Hrun); [by apply truthy_elements|].
    apply elem_of_elements in Hin.
    rewrite bind_run, Hrun, bind_run, set_remove_run by done.
    rewrite bind_run, emit_run, bind_run, subprocess_call_run.
    unfold ret. rewrite !advance_advance. simpl.
    by apply decided_start.
  - rewrite bind_run, and_draw_below_run.
    change (drawn (advance w (if truthy (stopped_services l) then 1 else 0) 0 []))
      with ((if truthy (stopped_services l) then 1 else 0) + drawn w).
    change (draws (advance w (if truthy (stopped_services l) then 1 else 0) 0 []))
      with (draws w).
    fold (stop_test args l w).
    destruct (stop_test args l w) eqn:Hstop.
    + assert (truthy (available_services args l) = true) as Ha
        by (unfold stop_test in Hstop; by apply andb_true_iff in Hstop as [? _]).
      rewrite Ha, bind_run.
      match goal with |- context [random_choice ?seq ?w'] =>
        destruct (random_choice_spec seq w') as (s & Hin & Hrun);
          [by apply truthy_elements|]
      end.
      apply elem_of_elements in Hin.
      rewrite Hrun, bind_run, emit_run, bind_run, subprocess_call_run.
      unfold ret. rewrite !advance_advance. simpl.
      by apply decided_stop.
    + unfold ret. rewrite advance_advance. simpl.
      by apply decided_idle.
Qed.

Lemma report_run args l w :
  report args l w
  = (Ok (Locals (stopped_services l) false),
     advance w 0 (if print_ps l then 1 else 0) (report_events args l)).
Proof.
  unfold report, report_events. destruct l as [stopped [|]]; simpl.
  - rewrite bind_run, emit_run, bind_run, subprocess_call_run.
    unfold ret. by rewrite advance_advance.
  - by rewrite bind_run, emit_run.
Qed.

Lemma time_sleep_run t w :
  time_sleep t w
  = (match sleep_error t with None => Ok tt | Some e => Raise e end,
     advance w 0 0 (sleep_events t)).
Proof.
  unfold time_sleep, sleep_events. destruct (sleep_error t); [|done].
  unfold raise. by rewrite advance_nothing.
Qed.

Lemma iteration_run args l w l1 w1 :
  decide_action args l w = (Ok l1, w1) →
  iteration args l w
  = (finish args (stopped_services l1),
     advance w1 0 (if print_ps l1 then 1 else 0)
       (report_events args l1 ++ sleep_events (sleep_time args))).
Proof.
  intros Hd. unfold iteration, finish.
  rewrite bind_run, Hd, bind_run, report_run, bind_run, time_sleep_run.
  rewrite advance_advance. simpl.
  by destruct (sleep_error (sleep_time args)).
Qed.

Lemma iteration_iterated args l w : iterated args l w (iteration args l w).
Proof.
  pose proof (decide_action_decided args l w) as Hd.
  inversion Hd as [s Hstart Hs Heq|s Hstart Hstop Hs Heq|Hstart Hstop Heq];
    symmetry in Heq; rewrite (iteration_run _ _ _ _ _ Heq), advance_advance.
  - by apply iterated_start.
  - replace (0 + (2 + (if truthy (stopped_services l) then 1 else 0)))
      with (2 + (if truthy (stopped_services l) then 1 else 0)) by done.
    by apply iterated_stop.
  - rewrite Nat.add_0_r. by apply iterated_idle.
Qed.

Lemma finish_ok args stopped l' :
  finish args stopped = Ok l' → l' = Locals stopped false.
Proof. unfold finish. destruct (sleep_error _); congruence. Qed.

Lemma loop_S args n l w :
  loop args (S n) l w
  = match iteration args l w with
    | (Ok l1, w1) => loop args n l1 w1
    | (Raise e, w1) => (Raise e, w1)
    end.
Proof. reflexivity. Qed.

(** The events of one turn, counted. *)
Lemma count_sleep_events p t :
  (∀ t', p (Sleep t') = false) → count p (sleep_events t) = 0.
Proof.
  intros Hp. unfold sleep_events, count.
  destruct (sleep_error t); simpl; [done|]. by rewrite Hp.
Qed.

Lemma starts_advance w k c evs :
  starts (advance w k c evs) = starts w + count is_start evs.
Proof. apply count_app. Qed.

Lemma stops_advance w k c evs :
  stops (advance w k c evs) = stops w + count is_stop evs.
Proof. apply count_app. Qed.

Lemma status_listings_advance w k c evs :
  status_listings (advance w k c evs) = status_listings w + count is_ps evs.
Proof. apply count_app. Qed.

Lemma idle_messages_advance w k c evs :
  idle_messages (advance w k c evs) = idle_messages w + count is_idle_message evs.
Proof. apply count_app. Qed.

Lemma count_cons p e evs :
  count p (e :: evs) = (if p e then 1 else 0) + count p evs.
Proof. unfold count. simpl. by destruct (p e). Qed.

Lemma count_nil p : count p [] = 0.
Proof. reflexivity. Qed.

Ltac count_events :=
  rewrite ?starts_advance, ?stops_advance, ?status_listings_advance,
    ?idle_messages_advance;
  rewrite ?count_app, ?count_cons, ?count_nil, ?count_sleep_events by done;
  cbn [is_start is_stop is_ps is_idle_message subcommand start_command
       stop_command ps_command DOCKER_BASE_COMMAND app length drop
       String.eqb Ascii.eqb Bool.eqb Nat.add];
  rewrite ?Nat.add_0_r.

Example count_start_turn s t :
  count is_start ([PrintStarting s; start_command s; PrintPsStatus; ps_command]
                  ++ sleep_events t) = 1.
Proof. count_events. reflexivity. Qed.

(** ** The stopped set stays within the services *)

Lemma iteration_keeps_subset args l w l' w' :
  stopped_services l ⊆ services args →
  iteration args l w = (Ok l', w') →
  stopped_services l' ⊆ services args.
Proof.
  intros Hsub Hrun. pose proof (iteration_iterated args l w) as Hit.
  rewrite Hrun in Hit.
  inversion Hit as [s _ Hs Hfin|s _ _ Hs Hfin|_ _ Hfin];
    apply finish_ok in Hfin; subst l'; simpl.
  - set_solver.
  - unfold available_services in Hs. set_solver.
  - done.
Qed.

Lemma loop_keeps_subset args n : ∀ l w l' w',
  stopped_services l ⊆ services args →
  loop args n l w = (Ok l', w') →
  stopped_services l' ⊆ services args.
Proof.
  induction n as [|n IH]; intros l w l' w' Hsub Hrun.
  - injection Hrun as <- _. done.
  - rewrite loop_S in Hrun.
    destruct (iteration args l w) as [[l1|e] w1] eqn:Hit; [|done].
    eapply IH; [|exact Hrun]. by eapply iteration_keeps_subset.
Qed.

(** C1.  Whatever the random draws and however many turns the loop has made
    since it began with an empty stopped set, the stopped set is a subset of
    the services, and the available set that line 25 computes from it at the
    start of the next turn is its complement within the services: together
    they make up the services and they share no element. *)
Theorem stopped_and_available_partition_services args n w l w' :
  main args n w = (Ok l, w') →
  stopped_services l ⊆ services args
  ∧ available_services args l = services args ∖ stopped_services l
  ∧ available_services args l ∪ stopped_services l = services args
  ∧ available_services args l ## stopped_services l.
Proof.
  intros Hrun.
  assert (stopped_services l ⊆ services args) as Hsub.
  { eapply loop_keeps_subset; [|exact Hrun]. simpl. set_solver. }
  split; [done|]. split; [done|]. unfold available_services. split.
  - rewrite (union_comm_L _ (stopped_services l)).
    symmetry. by apply union_difference_L.
  - set_solver.
Qed.

Lemma stopped_and_available_partition_services_witness :
  let l := Locals {["node1"]} false in
  stopped_services l ⊆ services node1_only
  ∧ available_services node1_only l = services node1_only ∖ stopped_services l
  ∧ available_services node1_only l ∪ stopped_services l = services node1_only
  ∧ available_services node1_only l ## stopped_services l.
Proof.
  eapply (stopped_and_available_partition_services node1_only 2 quiet_world).
  vm_compute. reflexivity.
Defined.

(** ** One action per turn *)

Lemma size_within_singleton (X : gset string) (s : string) :
  X ⊆ {[s]} → size X ≤ 1.
Proof. intros HX. apply subseteq_size in HX. by rewrite size_singleton in HX. Qed.

Lemma sym_diff_removed (X S : gset string) (s : string) :
  sym_diff X (X ∖ {[s]}) ⊆ {[s]} ∧ sym_diff (S ∖ X) (S ∖ (X ∖ {[s]})) ⊆ {[s]}.
Proof.
  unfold sym_diff. split; intros x; destruct (decide (x = s)); set_solver.
Qed.

Lemma sym_diff_added (X S : gset string) (s : string) :
  sym_diff X ({[s]} ∪ X) ⊆ {[s]} ∧ sym_diff (S ∖ X) (S ∖ ({[s]} ∪ X)) ⊆ {[s]}.
Proof.
  unfold sym_diff. split; intros x; destruct (decide (x = s)); set_solver.
Qed.

Lemma sym_diff_same (X : gset string) : sym_diff X X = ∅.
Proof. unfold sym_diff. set_solver. Qed.

(** C2.  In one turn of the loop the numbers of start and of stop commands
    do not decrease and together grow by at most one; between the locals
    before and after the turn at most one service changes sides, in the
    stopped set as in the available set.  When the test of line 26 holds
    (the stopped set is not empty and the draw is below the starting
    chance) a start command is issued, no stop command is, and only two
    draws are consumed, the one of the test and the one of the choice: the
    test of line 35 makes no draw.  A stop command is issued only in a turn
    where the test of line 26 failed, and then no start command is. *)
Theorem one_action_per_turn args l w :
  let r := iteration args l w in
  starts w ≤ starts r.2 ∧ stops w ≤ stops r.2
  ∧ starts r.2 + stops r.2 ≤ starts w + stops w + 1
  ∧ (∀ l', r.1 = Ok l' →
       size (sym_diff (stopped_services l) (stopped_services l')) ≤ 1
       ∧ size (sym_diff (available_services args l)
                        (available_services args l')) ≤ 1)
  ∧ (start_test args l w = true →
       starts r.2 = starts w + 1 ∧ stops r.2 = stops w
       ∧ drawn r.2 = 2 + drawn w)
  ∧ (stops w < stops r.2 →
       start_test args l w = false ∧ starts r.2 = starts w).
Proof.
  intros r. subst r.
  destruct (iteration_iterated args l w) as [s Hstart Hs|s Hstart Hstop Hs|Hstart Hstop];
    cbn [fst snd]; count_events.
  - split_and!; [lia | lia | lia | | by intros _ | intros ?; lia].
    intros l' ->%finish_ok. unfold available_services. simpl.
    split; eapply size_within_singleton;
      [apply (proj1 (sym_diff_removed _ ∅ _)) | apply (proj2 (sym_diff_removed _ _ _))].
  - split_and!; [lia | lia | lia | | congruence | done].
    intros l' ->%finish_ok. unfold available_services. simpl.
    split; eapply size_within_singleton;
      [apply (proj1 (sym_diff_added _ ∅ _)) | apply (proj2 (sym_diff_added _ _ _))].
  - assert (count is_start (report_events args l) = 0
            ∧ count is_stop (report_events args l) = 0) as [-> ->]
      by (unfold report_events; by destruct (print_ps l)).
    split_and!; [lia | lia | lia | | congruence | intros ?; lia].
    intros l' ->%finish_ok. simpl.
    rewrite !sym_diff_same, size_empty. lia.
Qed.

Lemma one_action_per_turn_witness :
  let r := iteration restarting node1_stopped quiet_world in
  (size (sym_diff (stopped_services node1_stopped) ∅) ≤ 1
   ∧ size (sym_diff (available_services restarting node1_stopped)
                   (available_services restarting (Locals ∅ false))) ≤ 1)
  ∧ (starts r.2 = starts quiet_world + 1 ∧ stops r.2 = stops quiet_world
     ∧ drawn r.2 = 2 + drawn quiet_world)
  ∧ (start_test node1_only initial quiet_world = false
     ∧ starts (iteration node1_only initial quiet_world).2 = starts quiet_world).
Proof.
  pose proof (one_action_per_turn restarting node1_stopped quiet_world)
    as (_ & _ & _ & Hmoved & Hstart & _).
  pose proof (one_action_per_turn node1_only initial quiet_world)
    as (_ & _ & _ & _ & _ & Hstop).
  split; [|split].
  - apply (Hmoved (Locals ∅ false)). vm_compute. reflexivity.
  - apply Hstart. vm_compute. reflexivity.
  - apply Hstop. vm_compute. lia.
Defined.

(** ** Exit codes are not looked at *)

Lemma draws_only_ret {A} (a : A) : draws_only (ret a).
Proof. by intros w1 w2 H. Qed.

Lemma draws_only_raise {A} (e : exn) : draws_only (raise (A:=A) e).
Proof. by intros w1 w2 H. Qed.

Lemma draws_only_emit e : draws_only (emit e).
Proof. by intros w1 w2 H. Qed.

Lemma draws_only_next_draw : draws_only next_draw.
Proof.
  intros w1 w2 [Hd Hn]. unfold next_draw, same_draws. simpl.
  by rewrite Hn, Hd.
Qed.

Lemma draws_only_bind {A B} (m : M A) (k : A → M B) :
  draws_only m → (∀ a, draws_only (k a)) → draws_only (do x <- m; k x).
Proof.
  intros Hm Hk w1 w2 Hw. rewrite !bind_run.
  destruct (Hm w1 w2 Hw) as [Hr Hw'].
  destruct (m w1) as [[a1|e1] w1'], (m w2) as [[a2|e2] w2']; simpl in *;
    try discriminate.
  - injection Hr as ->. by apply Hk.
  - by injection Hr as ->.
Qed.

(** The exit code that [subprocess.call] returns differs between the two
    worlds; the code that follows never reads it. *)
Lemma draws_only_call_discarded {B} argv (k : M B) :
  draws_only k → draws_only (do _ <- subprocess_call argv; k).
Proof.
  intros Hk w1 w2 [Hd Hn]. rewrite !bind_run, !subprocess_call_run.
  by apply Hk.
Qed.

Lemma draws_only_if {A} (b : bool) (m1 m2 : M A) :
  draws_only m1 → draws_only m2 → draws_only (if b then m1 else m2).
Proof. by destruct b. Qed.

Create HintDb draws_only.
#[local] Hint Resolve draws_only_ret draws_only_raise draws_only_emit
  draws_only_next_draw draws_only_bind draws_only_call_discarded
  draws_only_if : draws_only.

Lemma draws_only_random_choice {A} (seq : list A) : draws_only (random_choice seq).
Proof. destruct seq; unfold random_choice; eauto with draws_only. Qed.

Lemma draws_only_and_draw_below a chance : draws_only (and_draw_below a chance).
Proof. unfold and_draw_below, random_random. eauto 6 with draws_only. Qed.

Lemma draws_only_set_remove s x : draws_only (set_remove s x).
Proof. unfold set_remove. eauto with draws_only. Qed.

Lemma draws_only_time_sleep t : draws_only (time_sleep t).
Proof. unfold time_sleep. destruct (sleep_error t); eauto with draws_only. Qed.

#[local] Hint Resolve draws_only_random_choice draws_only_and_draw_below
  draws_only_set_remove draws_only_time_sleep : draws_only.

Lemma draws_only_decide_action args l : draws_only (decide_action args l).
Proof.
  unfold decide_action.
  apply draws_only_bind; [eauto with draws_only|]. intros start.
  apply draws_only_if; [eauto 8 with draws_only|].
  apply draws_only_bind; [eauto with draws_only|]. intros stop.
  apply draws_only_if; eauto 8 with draws_only.
Qed.

Lemma draws_only_report args l : draws_only (report args l).
Proof. unfold report. eauto 8 with draws_only. Qed.

#[local] Hint Resolve draws_only_decide_action draws_only_report : draws_only.

Lemma draws_only_iteration args l : draws_only (iteration args l).
Proof. unfold iteration. eauto 8 with draws_only. Qed.

Lemma draws_only_loop args n : ∀ l, draws_only (loop args n l).
Proof.
  induction n as [|n IH]; intros l; simpl;
    eauto using draws_only_iteration with draws_only.
Qed.

(** C3.  Two runs of [main] on the same arguments that get the same random
    draws end every number of turns in the same way, with the same stopped
    set and the same status flag or with the same exception, and have made
    the same number of draws, whatever exit codes the start, stop and status
    commands return in either run. *)
Theorem exit_codes_do_not_matter args n w1 w2 :
  (∀ k, draws w1 k = draws w2 k) →
  drawn w1 = drawn w2 →
  (main args n w1).1 = (main args n w2).1
  ∧ drawn (main args n w1).2 = drawn (main args n w2).2.
Proof.
  intros Hd Hn.
  destruct (draws_only_loop args n initial w1 w2) as (Hr & _ & Hn'); [done|].
  by split.
Qed.

Lemma exit_codes_do_not_matter_witness :
  (main restarting 4 quiet_world).1 = (main restarting 4 failing_world).1
  ∧ drawn (main restarting 4 quiet_world).2
    = drawn (main restarting 4 failing_world).2.
Proof.
  apply (exit_codes_do_not_matter restarting 4 quiet_world failing_world).
  - intros k. reflexivity.
  - reflexivity.
Defined.

(** ** Turns whose tests are settled *)

Lemma truthy_true (s : gset string) : s ≠ ∅ → truthy s = true.
Proof. intros Hs. unfold truthy. by apply bool_decide_eq_true. Qed.

Lemma truthy_empty : truthy ∅ = false.
Proof. reflexivity. Qed.

Lemma start_test_nothing_stopped args l w :
  stopped_services l = ∅ → start_test args l w = false.
Proof. intros Hl. unfold start_test. by rewrite Hl, truthy_empty. Qed.

Lemma start_test_zero_chance args l w :
  float_is (starting_chance args) 0 → start_test args l w = false.
Proof.
  intros H0. unfold start_test.
  rewrite (random_not_below_zero _ _ H0). apply andb_false_r.
Qed.

Lemma stop_test_zero_chance args l w :
  float_is (stopping_chance args) 0 → stop_test args l w = false.
Proof.
  intros H0. unfold stop_test.
  rewrite (random_not_below_zero _ _ H0). apply andb_false_r.
Qed.

(** A turn in which both tests fail. *)
Lemma idle_turn args l w :
  start_test args l w = false →
  stop_test args l w = false →
  (iteration args l w).1 = finish args (stopped_services l)
  ∧ starts (iteration args l w).2 = starts w
  ∧ stops (iteration args l w).2 = stops w
  ∧ status_listings (iteration args l w).2
    = status_listings w + (if print_ps l then 1 else 0)
  ∧ idle_messages (iteration args l w).2
    = idle_messages w + (if print_ps l then 0 else 1).
Proof.
  intros Hstart Hstop.
  destruct (iteration_iterated args l w) as [s Hstart' _|s _ Hstop' _|_ _];
    [congruence|congruence|].
  cbn [fst snd]. unfold report_events.
  destruct (print_ps l); count_events; done.
Qed.

(** [sleep_error] on some lengths, as [time.sleep] answers them: 9.2e9 and
    9.3e9 seconds lie on either side of the end of the timestamp, and so do
    their opposites. *)
Example sleep_error_edges :
  sleep_error (Finite 0) = None
  ∧ sleep_error (Finite 5) = None
  ∧ sleep_error (Finite (-1)) = Some ValueError
  ∧ sleep_error (Finite (-1 # 10 ^ 10)) = Some ValueError
  ∧ sleep_error (Finite 9200000000) = None
  ∧ sleep_error (Finite 9300000000) = Some OverflowError
  ∧ sleep_error (Finite (2417851639229259 # 262144)) = Some OverflowError
  ∧ sleep_error (Finite (-9200000000)) = Some ValueError
  ∧ sleep_error (Finite (-9300000000)) = Some OverflowError
  ∧ sleep_error (Finite 10000000000) = Some OverflowError
  ∧ sleep_error (Finite (-10000000000)) = Some OverflowError
  ∧ sleep_error PosInf = Some OverflowError
  ∧ sleep_error NegInf = Some OverflowError
  ∧ sleep_error NaN = Some ValueError.
Proof. repeat split; by vm_compute. Qed.

Lemma sleep_accepted_ok t : sleep_accepted t → sleep_error t = None.
Proof.
  destruct t as [q| | |]; try done. intros [H0 Hmax].
  unfold sleep_error, sleep_overflows.
  assert (Qle_bool (Qabs (q * inject_Z (10 ^ 9))) (inject_Z (2 ^ 63 + 1024)) = true)
    as ->.
  { apply Qle_bool_iff. rewrite Qabs_pos.
    - apply (Qle_trans _ _ _ Hmax). by vm_compute.
    - apply Qmult_le_0_compat; [done | by vm_compute]. }
  simpl. by apply Qle_bool_iff in H0 as ->.
Qed.

(** The loop of the model goes on as long as [sleep_error] lets the sleep
    time pass; [sleep_accepted] is what makes sure that the program does. *)
Lemma iteration_returns args l w :
  sleep_error (sleep_time args) = None →
  ∃ l' w', iteration args l w = (Ok l', w').
Proof.
  intros Hsleep.
  destruct (iteration_iterated args l w); unfold finish; rewrite Hsleep; eauto.
Qed.

Lemma loop_returns args n : ∀ l w,
  sleep_error (sleep_time args) = None →
  ∃ l' w', loop args n l w = (Ok l', w').
Proof.
  induction n as [|n IH]; intros l w Hsleep; [by exists l, w|].
  rewrite loop_S.
  destruct (iteration_returns args l w Hsleep) as (l1 & w1 & ->).
  by apply IH.
Qed.

Lemma size_remove (X : gset string) (s : string) :
  s ∈ X → size X = S (size (X ∖ {[s]})).
Proof.
  intros Hs. rewrite size_difference by set_solver.
  rewrite size_singleton.
  assert (size X ≠ 0) by (intros ?%size_empty_inv; set_solver).
  lia.
Qed.

(** ** Stopping with certainty *)

(** C4, as the specification states it, fails: with both chances at 1 and
    two services, the first turn stops [node1]; the second turn begins with
    [node2] available, yet it starts [node1] again and stops nothing. *)
Lemma stop_in_every_turn_counterexample :
  let w1 := (main restarting 1 quiet_world).2 in
  float_is (stopping_chance restarting) 1
  ∧ (main restarting 1 quiet_world).1 = Ok node1_stopped
  ∧ available_services restarting node1_stopped = {["node2"]}
  ∧ available_services restarting node1_stopped ≠ ∅
  ∧ stops (iteration restarting node1_stopped w1).2 ≠ stops w1 + 1
  ∧ stops (iteration restarting node1_stopped w1).2 = stops w1
  ∧ starts (iteration restarting node1_stopped w1).2 = starts w1 + 1.
Proof.
  split_and!; try (vm_compute; reflexivity).
  - vm_compute. intros H. discriminate H.
  - vm_compute. intros H. discriminate H.
Qed.

Section SureStop.
Context (args : Namespace).
Hypothesis Hsure : float_is (stopping_chance args) 1.

Lemma stop_test_sure l w :
  available_services args l ≠ ∅ → stop_test args l w = true.
Proof.
  intros Ha. unfold stop_test.
  by rewrite (random_below_one _ _ Hsure), truthy_true.
Qed.

(** C4, amended.  With a stopping chance of 1, a turn that begins with a
    service available and in which the test of line 26 fails (nothing is
    stopped, or the draw is not below the starting chance) issues exactly
    one stop command and no start command, whatever the draws; the service
    it stops was available and joins the stopped set. *)
Theorem stop_when_start_not_taken l w :
  available_services args l ≠ ∅ →
  start_test args l w = false →
  let r := iteration args l w in
  stops r.2 = stops w + 1
  ∧ starts r.2 = starts w
  ∧ ∃ s, s ∈ available_services args l
         ∧ r.1 = finish args ({[s]} ∪ stopped_services l).
Proof.
  intros Ha Hstart r. subst r.
  pose proof (stop_test_sure l w Ha) as Hstop.
  destruct (iteration_iterated args l w) as [s Hstart' Hs|s _ _ Hs|_ Hstop'];
    [congruence| |congruence].
  cbn [fst snd]. count_events. split_and!; [done|done|]. by exists s.
Qed.
End SureStop.

Lemma stop_when_start_not_taken_witness :
  let r := iteration restarting initial quiet_world in
  stops r.2 = stops quiet_world + 1
  ∧ starts r.2 = starts quiet_world
  ∧ ∃ s, s ∈ available_services restarting initial
         ∧ r.1 = finish restarting ({[s]} ∪ stopped_services initial).
Proof.
  apply (stop_when_start_not_taken restarting).
  - vm_compute. reflexivity.
  - vm_compute. intros H. discriminate H.
  - vm_compute. reflexivity.
Defined.

(** ** Starting with certainty *)

Section SureStart.
Context (args : Namespace).
Hypothesis Hsure : float_is (starting_chance args) 1.

Lemma start_test_sure l w :
  stopped_services l ≠ ∅ → start_test args l w = true.
Proof.
  intros Hs. unfold start_test.
  by rewrite (random_below_one _ _ Hsure), truthy_true.
Qed.

Lemma sure_start_turn l w :
  stopped_services l ≠ ∅ →
  ∃ s, s ∈ stopped_services l
       ∧ (iteration args l w).1 = finish args (stopped_services l ∖ {[s]})
       ∧ starts (iteration args l w).2 = starts w + 1
       ∧ stops (iteration args l w).2 = stops w.
Proof.
  intros Hne. pose proof (start_test_sure l w Hne) as Hstart.
  destruct (iteration_iterated args l w) as [s _ Hs|s Hstart' _ _|Hstart' _];
    [|congruence|congruence].
  exists s. cbn [fst snd]. count_events. done.
Qed.

Lemma sure_start_drains n : ∀ l w l' w',
  size (stopped_services l) = n →
  loop args n l w = (Ok l', w') →
  stopped_services l' = ∅ ∧ starts w' = starts w + n ∧ stops w' = stops w.
Proof.
  induction n as [|n IH]; intros l w l' w' Hsize Hrun.
  - injection Hrun as <- <-. apply size_empty_inv in Hsize.
    split_and!; [by apply leibniz_equiv | lia | done].
  - rewrite loop_S in Hrun.
    destruct (sure_start_turn l w) as (s & Hs & Hfin & Hstarts & Hstops).
    { intros Hempty. rewrite Hempty, size_empty in Hsize. lia. }
    destruct (iteration args l w) as [[l1|e] w1]; [|done].
    simpl in Hfin, Hstarts, Hstops. symmetry in Hfin.
    apply finish_ok in Hfin. subst l1.
    rewrite (size_remove _ _ Hs) in Hsize. injection Hsize as Hsize.
    destruct (IH (Locals (stopped_services l ∖ {[s]}) false) w1 l' w' Hsize Hrun)
      as (Hempty & Hstarts' & Hstops').
    split_and!; [done | lia | lia].
Qed.

(** C5.  With a starting chance of 1, whatever the stopping chance and the
    draws: a turn that begins with a non-empty stopped set issues exactly
    one start command and no stop command, and takes one service out of
    the stopped set; so a run of as many turns as the stopped set has
    elements ends with an empty stopped set, having issued one start
    command per turn and no stop command.  Such a run comes to its end
    when the sleep time is one that [time.sleep] is sure to accept. *)
Theorem start_every_turn_until_none_stopped l w :
  (stopped_services l ≠ ∅ →
     let r := iteration args l w in
     starts r.2 = starts w + 1 ∧ stops r.2 = stops w
     ∧ ∃ s, s ∈ stopped_services l
            ∧ r.1 = finish args (stopped_services l ∖ {[s]}))
  ∧ (∀ l' w', loop args (size (stopped_services l)) l w = (Ok l', w') →
       stopped_services l' = ∅
       ∧ starts w' = starts w + size (stopped_services l)
       ∧ stops w' = stops w)
  ∧ (sleep_accepted (sleep_time args) →
       ∃ l' w', loop args (size (stopped_services l)) l w = (Ok l', w')).
Proof.
  split_and!.
  - intros Hne r. subst r.
    destruct (sure_start_turn l w Hne) as (s & Hs & Hfin & Hstarts & Hstops).
    split_and!; [done|done|]. by exists s.
  - intros l' w' Hrun. by eapply sure_start_drains.
  - intros Hsleep%sleep_accepted_ok. by apply loop_returns.
Qed.
End SureStart.

Lemma start_every_turn_until_none_stopped_witness :
  let r := iteration restarting both_stopped quiet_world in
  (starts r.2 = starts quiet_world + 1 ∧ stops r.2 = stops quiet_world
   ∧ ∃ s, s ∈ stopped_services both_stopped
          ∧ r.1 = finish restarting (stopped_services both_stopped ∖ {[s]}))
  ∧ (∃ l' w', loop restarting 2 both_stopped quiet_world = (Ok l', w')
              ∧ stopped_services l' = ∅
              ∧ starts w' = starts quiet_world + 2
              ∧ stops w' = stops quiet_world).
Proof.
  assert (float_is (starting_chance restarting) 1) as Hsure
    by (vm_compute; reflexivity).
  destruct (start_every_turn_until_none_stopped restarting Hsure
              both_stopped quiet_world) as (Hturn & Hrun & Hends).
  split.
  - apply Hturn. vm_compute. intros H. discriminate H.
  - destruct Hends as (l' & w' & Hloop); [split; by vm_compute|].
    exists l', w'. split; [exact Hloop|]. by apply Hrun.
Defined.

(** ** Chances of zero *)

Section ZeroChances.
Context (args : Namespace).
Hypothesis Hstop : float_is (stopping_chance args) 0.
Hypothesis Hstart : float_is (starting_chance args) 0.

Lemma zero_chances_loop n : ∀ l w,
  starts (loop args n l w).2 = starts w
  ∧ stops (loop args n l w).2 = stops w
  ∧ ∀ l', (loop args n l w).1 = Ok l' → stopped_services l' = stopped_services l.
Proof.
  induction n as [|n IH]; intros l w.
  - simpl. split_and!; [done|done|]. by intros l' [= <-].
  - rewrite loop_S.
    destruct (idle_turn args l w) as (Hfin & Hstarts & Hstops & _);
      [by apply start_test_zero_chance | by apply stop_test_zero_chance|].
    destruct (iteration args l w) as [[l1|e] w1]; simpl in *.
    + symmetry in Hfin. apply finish_ok in Hfin. subst l1.
      destruct (IH (Locals (stopped_services l) false) w1)
        as (Hstarts' & Hstops' & Hsame).
      split_and!; [congruence | congruence | done].
    + split_and!; [done | done | discriminate].
Qed.

(** C6.  With a stopping chance and a starting chance of 0, whatever the
    draws and however many turns [main] has made, no start command and no
    stop command has been issued, and the stopped set is still empty.  The
    turns are all made when the sleep time is one that [time.sleep] is sure
    to accept. *)
Theorem zero_chances_do_nothing n w :
  let r := main args n w in
  starts r.2 = starts w
  ∧ stops r.2 = stops w
  ∧ (∀ l, r.1 = Ok l → stopped_services l = ∅)
  ∧ (sleep_accepted (sleep_time args) → ∃ l, r.1 = Ok l).
Proof.
  intros r. subst r. unfold main.
  destruct (zero_chances_loop n initial w) as (Hs & Ht & Hl).
  split_and!; [done | done | done |].
  intros Hsleep%sleep_accepted_ok.
  destruct (loop_returns args n initial w Hsleep) as (l & w' & ->). by exists l.
Qed.
End ZeroChances.

Lemma zero_chances_do_nothing_witness :
  let r := main idle 7 quiet_world in
  starts r.2 = starts quiet_world
  ∧ stops r.2 = stops quiet_world
  ∧ ∃ l, r.1 = Ok l ∧ stopped_services l = ∅.
Proof.
  destruct (zero_chances_do_nothing idle) with (n := 7) (w := quiet_world)
    as (Hstarts & Hstops & Hempty & Hends); [vm_compute; reflexivity..|].
  split_and!; [done | done |].
  destruct Hends as [l Hl]; [split; by vm_compute|].
  exists l. split; [exact Hl | by apply Hempty].
Defined.

(** ** The example of one service *)

Lemma node1_only_first_turn w :
  iteration node1_only initial w
  = (Ok node1_stopped,
     advance w 2 2
       [PrintStopping "node1"; stop_command "node1"; PrintPsStatus; ps_command;
        Sleep (Finite 0)]).
Proof.
  pose proof (iteration_iterated node1_only initial w) as Hit.
  assert (start_test node1_only initial w = false) as Hstart
    by (by apply start_test_nothing_stopped).
  assert (stop_test node1_only initial w = true) as Hstop
    by (by apply stop_test_sure).
  inversion Hit as [s Hstart' _|s _ _ Hs Heq|_ Hstop']; [congruence| |congruence].
  assert (s = "node1") as ->
    by (unfold available_services, node1_only, initial in Hs; simpl in Hs;
        set_solver).
  reflexivity.
Qed.

Lemma node1_only_second_turn w :
  iteration node1_only node1_stopped w
  = (Ok node1_stopped,
     advance w 1 0 [PrintSleeping (Finite 0); Sleep (Finite 0)]).
Proof.
  pose proof (iteration_iterated node1_only node1_stopped w) as Hit.
  assert (start_test node1_only node1_stopped w = false) as Hstart
    by (by apply start_test_zero_chance).
  assert (stop_test node1_only node1_stopped w = false) as Hstop
    by (unfold stop_test; by replace (available_services node1_only node1_stopped)
          with (∅ : gset string) by (by vm_compute)).
  inversion Hit as [s Hstart' _|s _ Hstop' _|_ _ Heq]; [congruence|congruence|].
  reflexivity.
Qed.

Lemma node1_only_two_turns w :
  loop node1_only 2 initial w
  = (Ok node1_stopped,
     advance w 3 2
       [PrintStopping "node1"; stop_command "node1"; PrintPsStatus; ps_command;
        Sleep (Finite 0); PrintSleeping (Finite 0); Sleep (Finite 0)]).
Proof.
  simpl.
  rewrite bind_run, node1_only_first_turn, bind_run, node1_only_second_turn.
  unfold ret. by rewrite advance_advance.
Qed.

(** C7.  With the services [{node1}], a stopping chance of 1, a starting
    chance of 0 and a sleep time of 0, whatever the draws and the exit codes:
    the first turn issues the stop command for [node1], which joins the
    stopped set, and lists the status; the second turn begins with nothing
    available, makes the draw of the start test, which fails, issues no
    command, prints the idle message and no status listing, and leaves the
    stopped set as it was. *)
Theorem node1_only_example w :
  main node1_only 1 w
  = (Ok (Locals {["node1"]} false),
     advance w 2 2
       [PrintStopping "node1"; stop_command "node1"; PrintPsStatus; ps_command;
        Sleep (Finite 0)])
  ∧ available_services node1_only (Locals {["node1"]} false) = ∅
  ∧ (∀ w1, start_test node1_only (Locals {["node1"]} false) w1 = false
           ∧ stop_test node1_only (Locals {["node1"]} false) w1 = false)
  ∧ main node1_only 2 w
    = (Ok (Locals {["node1"]} false),
       advance w 3 2
         [PrintStopping "node1"; stop_command "node1"; PrintPsStatus; ps_command;
          Sleep (Finite 0); PrintSleeping (Finite 0); Sleep (Finite 0)]).
Proof.
  split_and!.
  - unfold main. simpl. by rewrite bind_run, node1_only_first_turn.
  - by vm_compute.
  - intros w1. split; [by apply start_test_zero_chance|].
    unfold stop_test.
    by replace (available_services node1_only (Locals {["node1"]} false))
      with (∅ : gset string) by (by vm_compute).
  - apply node1_only_two_turns.
Qed.

(** ** The status listing *)

Lemma due_listing_is_made args l w :
  print_ps l = true →
  status_listings (iteration args l w).2 = status_listings w + 1
  ∧ idle_messages (iteration args l w).2 = idle_messages w.
Proof.
  intros Hps.
  destruct (iteration_iterated args l w); cbn [fst snd]; unfold report_events;
    rewrite ?Hps; count_events; done.
Qed.

Lemma loop_one args l w : loop args 1 l w = iteration args l w.
Proof.
  simpl. rewrite bind_run. by destruct (iteration args l w) as [[l1|e] w1].
Qed.

Lemma flag_down_after_turn args l w l' w' :
  iteration args l w = (Ok l', w') → print_ps l' = false.
Proof.
  intros Hrun. pose proof (iteration_iterated args l w) as Hit.
  rewrite Hrun in Hit.
  inversion Hit as [s _ _ Hfin|s _ _ _ Hfin|_ _ Hfin];
    apply finish_ok in Hfin; by subst l'.
Qed.

Lemma flag_down_after_turns args n : ∀ l w l' w',
  loop args (S n) l w = (Ok l', w') → print_ps l' = false.
Proof.
  induction n as [|n IH]; intros l w l' w' Hrun.
  - rewrite loop_one in Hrun. by eapply flag_down_after_turn.
  - rewrite loop_S in Hrun.
    destruct (iteration args l w) as [[l1|e] w1]; [|done].
    by eapply IH.
Qed.

(** C9.  The flag [print_ps] begins as true, so the first turn of [main]
    issues exactly one status command and prints no idle message, whatever
    the arguments, the draws and the exit codes, also when it neither starts
    nor stops a service.  After every completed turn the flag is false, and
    a turn that begins with the flag false and takes no action prints the
    idle message and lists no status; the second turn of the example of one
    service is such a turn. *)
Theorem first_turn_lists_status args w :
  print_ps initial = true
  ∧ status_listings (main args 1 w).2 = status_listings w + 1
  ∧ idle_messages (main args 1 w).2 = idle_messages w
  ∧ (∀ n l w', main args (S n) w = (Ok l, w') → print_ps l = false)
  ∧ (∀ l w1,
       print_ps l = false →
       start_test args l w1 = false →
       stop_test args l w1 = false →
       idle_messages (iteration args l w1).2 = idle_messages w1 + 1
       ∧ status_listings (iteration args l w1).2 = status_listings w1)
  ∧ idle_messages (main node1_only 2 w).2 = idle_messages w + 1
  ∧ status_listings (main node1_only 2 w).2 = status_listings w + 1.
Proof.
  unfold main. rewrite loop_one.
  destruct (due_listing_is_made args initial w) as [Hps Hidle]; [done|].
  split_and!; [done | done | done | | | |].
  - intros n l w'. apply flag_down_after_turns.
  - intros l w1 Hflag Hstart Hstop.
    destruct (idle_turn args l w1 Hstart Hstop) as (_ & _ & _ & Hps' & Hidle').
    rewrite Hflag in Hps', Hidle'. lia.
  - rewrite node1_only_two_turns. cbn [snd]. count_events. done.
  - rewrite node1_only_two_turns. cbn [snd]. count_events. done.
Qed.

Lemma first_turn_lists_status_witness :
  print_ps node1_stopped = false
  ∧ idle_messages (iteration node1_only node1_stopped quiet_world).2
    = idle_messages quiet_world + 1
  ∧ status_listings (iteration node1_only node1_stopped quiet_world).2
    = status_listings quiet_world.
Proof.
  destruct (first_turn_lists_status node1_only quiet_world)
    as (_ & _ & _ & Hflag & Hidle & _).
  split.
  - apply (Hflag 1 node1_stopped (main node1_only 2 quiet_world).2).
    vm_compute. reflexivity.
  - apply Hidle; vm_compute; reflexivity.
Defined.

(** ** The defaults of the command line *)

Lemma float_0_1_nearest : double_nearest 7205759403792794 56 (1 # 10).
Proof. split; [lia|]. by vm_compute. Qed.

Lemma float_0_3_nearest : double_nearest 5404319552844595 54 (3 # 10).
Proof. split; [lia|]. by vm_compute. Qed.

(** C8.  Without options the parsed arguments are the three nodes, the
    doubles 0.1 and 0.3 and a sleep time of 5; each option that is absent
    takes its default whatever the others are; and the script hands the
    parsed arguments to [main] as they are. *)
Theorem command_line_defaults :
  parse_args no_options
  = {| services := {["node1"; "node2"; "node3"]};
       stopping_chance := Finite (7205759403792794 # 2 ^ 56);
       starting_chance := Finite (5404319552844595 # 2 ^ 54);
       sleep_time := Finite 5 |}
  ∧ double_nearest 7205759403792794 56 (1 # 10)
  ∧ double_nearest 5404319552844595 54 (3 # 10)
  ∧ (∀ cl,
       (opt_services cl = None → services (parse_args cl) = ALL_SERVICES)
       ∧ (opt_stopping_chance cl = None →
            stopping_chance (parse_args cl) = float_0_1)
       ∧ (opt_starting_chance cl = None →
            starting_chance (parse_args cl) = float_0_3)
       ∧ (opt_sleep_time cl = None → sleep_time (parse_args cl) = Finite 5))
  ∧ (∀ cl n w,
       script cl n w
       = main (parse_args cl) n (advance w 0 0 [PrintArgs (parse_args cl)])).
Proof.
  split_and!.
  - reflexivity.
  - apply float_0_1_nearest.
  - apply float_0_3_nearest.
  - intros cl. unfold parse_args. simpl. split_and!; by intros ->.
  - intros cl n w. reflexivity.
Qed.

Lemma command_line_defaults_witness :
  services (parse_args chances_only) = ALL_SERVICES
  ∧ stopping_chance (parse_args services_only) = float_0_1
  ∧ starting_chance (parse_args services_only) = float_0_3
  ∧ sleep_time (parse_args chances_only) = Finite 5.
Proof.
  destruct command_line_defaults as (_ & _ & _ & Hdefault & _).
  destruct (Hdefault services_only) as (_ & Hstop & Hstart & _).
  destruct (Hdefault chances_only) as (Hservices & _ & _ & Hsleep).
  split_and!; [apply Hservices | apply Hstop | apply Hstart | apply Hsleep];
    reflexivity.
Defined.

(** ** The type of [--services] *)

Lemma str_split_not_nil sep s : str_split sep s ≠ [].
Proof.
  destruct s as [|c s]; simpl; [done|].
  destruct (Ascii.eqb c sep); [done|]. by destruct (str_split sep s).
Qed.

Lemma str_join_split sep s : str_join sep (str_split sep s) = s.
Proof.
  induction s as [|c s IH]; [done|]. simpl.
  destruct (Ascii.eqb_spec c sep) as [->|Hne].
  - pose proof (str_split_not_nil sep s) as Hnil.
    change (str_join sep (EmptyString :: str_split sep s))
      with (match str_split sep s with
            | [] => EmptyString
            | _ :: _ => String sep (str_join sep (str_split sep s))
            end).
    destruct (str_split sep s); [done|]. by rewrite IH.
  - pose proof (str_split_not_nil sep s) as Hnil.
    destruct (str_split sep s) as [|piece pieces]; [done|].
    rewrite <- IH. by destruct pieces.
Qed.

Lemma str_split_no_sep sep s piece :
  piece ∈ str_split sep s → has_char sep piece = false.
Proof.
  revert piece. induction s as [|c s IH]; intros piece; simpl.
  - by intros ->%list_elem_of_singleton.
  - destruct (Ascii.eqb c sep) eqn:Hc.
    + intros [->|Hin]%elem_of_cons; [done|]. by apply IH.
    + pose proof (str_split_not_nil sep s) as Hnil.
      destruct (str_split sep s) as [|first pieces]; [done|].
      intros [->|Hin]%elem_of_cons.
      * simpl. rewrite Hc. apply IH. by left.
      * apply IH. by right.
Qed.

Lemma append_cons c a b :
  String.append (String c a) b = String c (String.append a b).
Proof. reflexivity. Qed.

Lemma str_lstrip_spec s :
  ∃ pre, s = String.append pre (str_lstrip s) ∧ all_space pre = true.
Proof.
  induction s as [|c s (pre & Hs & Hpre)]; [by exists EmptyString|].
  simpl. destruct (isspace c) eqn:Hc.
  - exists (String c pre). rewrite append_cons. simpl.
    split; [congruence | by rewrite Hc].
  - by exists EmptyString.
Qed.

Lemma str_lstrip_start s : starts_with_space (str_lstrip s) = false.
Proof.
  induction s as [|c s IH]; [done|]. simpl.
  destruct (isspace c) eqn:Hc; [done|]. by simpl.
Qed.

Lemma str_rstrip_spec s :
  ∃ post, s = String.append (str_rstrip s) post ∧ all_space post = true.
Proof.
  induction s as [|c s (post & Hs & Hpost)]; [by exists EmptyString|].
  simpl. destruct (str_rstrip s) as [|a r].
  - change (s = post) in Hs. subst post. destruct (isspace c) eqn:Hc.
    + exists (String c s). simpl. by rewrite Hc.
    + by exists s.
  - exists post. rewrite append_cons. split; [congruence | done].
Qed.

Lemma str_rstrip_end s : ends_with_space (str_rstrip s) = false.
Proof.
  induction s as [|c s IH]; [done|]. simpl.
  destruct (str_rstrip s) as [|a r].
  - destruct (isspace c) eqn:Hc; [done|]. by simpl.
  - done.
Qed.

Lemma str_rstrip_start s :
  starts_with_space s = false → starts_with_space (str_rstrip s) = false.
Proof.
  destruct s as [|c s]; [done|]. simpl. intros Hc.
  destruct (str_rstrip s); [by rewrite Hc|done].
Qed.

(** [strip] takes off a run of white space at either end and leaves none. *)
Lemma str_strip_spec s :
  (∃ pre post, s = String.append pre (String.append (str_strip s) post)
               ∧ all_space pre = true ∧ all_space post = true)
  ∧ starts_with_space (str_strip s) = false
  ∧ ends_with_space (str_strip s) = false.
Proof.
  unfold str_strip. split_and!.
  - destruct (str_lstrip_spec s) as (pre & Hs & Hpre).
    destruct (str_rstrip_spec (str_lstrip s)) as (post & Hl & Hpost).
    exists pre, post. by rewrite <- Hl.
  - apply str_rstrip_start, str_lstrip_start.
  - apply str_rstrip_end.
Qed.

Lemma size_list_to_set_le (l : list string) :
  size (list_to_set l : gset string) ≤ length l.
Proof.
  induction l as [|x l IH]; simpl; [done|].
  rewrite size_union_alt, size_singleton.
  assert (size (list_to_set l ∖ {[x]} : gset string) ≤ size (list_to_set l : gset string))
    by (apply subseteq_size; set_solver).
  lia.
Qed.

Lemma elem_of_services_type s x :
  x ∈ services_type s ↔ ∃ piece, piece ∈ str_split "," s ∧ x = str_strip piece.
Proof.
  unfold services_type. rewrite elem_of_list_to_set, list_elem_of_fmap.
  naive_solver.
Qed.

(** C10.  The value of [--services] is the set of the stripped pieces of
    the string between its commas: joining the pieces with commas gives the
    string back and no piece holds a comma; stripping a piece takes white
    space off both ends and leaves none there.  Equal pieces give one
    element, so the set has at most as many elements as there are pieces.
    The set is never empty, and the empty string gives the set whose only
    element is the empty name. *)
Theorem services_type_never_empty s :
  services_type s ≠ ∅
  ∧ services_type "" = {[""]}
  ∧ (∀ x, x ∈ services_type s
          ↔ ∃ piece, piece ∈ str_split "," s ∧ x = str_strip piece)
  ∧ str_join "," (str_split "," s) = s
  ∧ (∀ piece, piece ∈ str_split "," s → has_char "," piece = false)
  ∧ (∀ piece,
       (∃ pre post, piece = String.append pre (String.append (str_strip piece) post)
                    ∧ all_space pre = true ∧ all_space post = true)
       ∧ starts_with_space (str_strip piece) = false
       ∧ ends_with_space (str_strip piece) = false)
  ∧ size (services_type s) ≤ length (str_split "," s)
  ∧ services_type "node1, node2 ,node1" = {["node1"; "node2"]}
  ∧ services_type "node1,node1" = {["node1"]}.
Proof.
  split_and!.
  - pose proof (str_split_not_nil "," s) as Hnil.
    destruct (str_split "," s) as [|piece pieces] eqn:Hsplit; [done|].
    intros Hempty.
    assert (str_strip piece ∈ services_type s) as Hin.
    { apply elem_of_services_type. exists piece. rewrite Hsplit. split; [by left|done]. }
    rewrite Hempty in Hin. set_solver.
  - by vm_compute.
  - apply elem_of_services_type.
  - apply str_join_split.
  - intros piece. apply str_split_no_sep.
  - apply str_strip_spec.
  - unfold services_type.
    etrans; [apply size_list_to_set_le|]. by rewrite length_fmap.
  - by vm_compute.
  - by vm_compute.
Qed.

Lemma services_type_never_empty_witness :
  has_char "," "node1" = false
  ∧ " node2" ∈ str_split "," "node1, node2"
  ∧ "node2" ∈ services_type "node1, node2".
Proof.
  destruct (services_type_never_empty "node1, node2")
    as (_ & _ & Helem & _ & Hcomma & _).
  assert (" node2" ∈ str_split "," "node1, node2") as Hpiece
    by (vm_compute; right; left).
  split_and!.
  - apply Hcomma. vm_compute. left.
  - exact Hpiece.
  - apply Helem. exists " node2". split; [exact Hpiece | reflexivity].
Defined.

(** * Further properties of the loop *)

(** ** What can end a run *)

Lemma iteration_outcome args l w :
  ∃ stopped, (iteration args l w).1 = finish args stopped.
Proof. destruct (iteration_iterated args l w); eauto. Qed.

Lemma iteration_raises args l w e :
  (iteration args l w).1 = Raise e ↔ sleep_error (sleep_time args) = Some e.
Proof.
  destruct (iteration_outcome args l w) as [stopped ->]. unfold finish.
  destruct (sleep_error (sleep_time args)); split; congruence.
Qed.

(** An invariant of the locals and the world that every turn keeps holds
    after any number of turns; if the run is ended by an exception, what
    the invariant says of the world alone still holds. *)
Lemma loop_invariant args (Inv : locals → world → Prop) (Log : world → Prop) :
  (∀ l w, Inv l w → Log w) →
  (∀ l w, Inv l w →
     match iteration args l w with
     | (Ok l', w') => Inv l' w'
     | (Raise _, w') => Log w'
     end) →
  ∀ n l w, Inv l w →
    match loop args n l w with
    | (Ok l', w') => Inv l' w'
    | (Raise _, w') => Log w'
    end.
Proof.
  intros Hlog Hturn. induction n as [|n IH]; intros l w Hinv; [done|].
  rewrite loop_S. specialize (Hturn l w Hinv).
  destruct (iteration args l w) as [[l1|e] w1]; [by apply IH | done].
Qed.

Lemma loop_raises args n : ∀ l w e,
  (loop args n l w).1 = Raise e → sleep_error (sleep_time args) = Some e.
Proof.
  induction n as [|n IH]; intros l w e; [done|].
  rewrite loop_S.
  destruct (iteration args l w) as [[l1|e1] w1] eqn:Hit.
  - apply IH.
  - intros [= ->]. apply (iteration_raises args l w). by rewrite Hit.
Qed.

Lemma sleep_error_kind t e :
  sleep_error t = Some e → e = ValueError ∨ e = OverflowError.
Proof.
  destruct t as [q| | |]; simpl; [|naive_solver..].
  destruct (sleep_overflows q); [naive_solver|].
  destruct (Qle_bool 0 q); naive_solver.
Qed.

(** X1.  The choice of a service and its removal never fail.  From any
    locals, for any draws and after any number of turns, a run has not
    ended with [IndexError] nor with [KeyError]: [random.choice] is reached
    only with a set that is not empty, and [remove] only with a member of
    the set it is called on. *)
Theorem choice_and_removal_never_fail args n l w :
  (loop args n l w).1 ≠ Raise IndexError
  ∧ (loop args n l w).1 ≠ Raise KeyError.
Proof.
  split; intros Hraise%loop_raises%sleep_error_kind;
    by destruct Hraise.
Qed.

Lemma sleeps_advance w k c evs :
  sleeps (advance w k c evs) = sleeps w + count is_sleep evs.
Proof. apply count_app. Qed.

Lemma count_is_sleep_sleep_events t :
  count is_sleep (sleep_events t)
  = match sleep_error t with None => 1 | Some _ => 0 end.
Proof. unfold sleep_events. by destruct (sleep_error t). Qed.

(** Every turn sleeps once, at its end, unless [time.sleep] raises. *)
Lemma turn_sleeps args l w :
  sleeps (iteration args l w).2
  = sleeps w + match sleep_error (sleep_time args) with None => 1 | Some _ => 0 end.
Proof.
  destruct (iteration_iterated args l w); cbn [snd];
    rewrite sleeps_advance, count_app, count_is_sleep_sleep_events;
    unfold report_events; try destruct (print_ps l); reflexivity.
Qed.



(** ** The commands of a run *)

Lemma logged_since_app w w' evs :
  output w' = (output w ++ evs)%list → logged_since w w' = evs.
Proof. intros Hout. unfold logged_since. by rewrite Hout, drop_app_length. Qed.

Lemma within_sleep_events S t : Forall (within S) (sleep_events t).
Proof.
  unfold sleep_events. destruct (sleep_error t); repeat constructor.
Qed.

Lemma within_report_events S args l : Forall (within S) (report_events args l).
Proof.
  unfold report_events. destruct (print_ps l);
    rewrite !Forall_cons, Forall_nil; split_and!; try done. by left.
Qed.

Lemma within_start S s : s ∈ S → within S (start_command s).
Proof. intros Hs. right. exists s. split; [done | by left]. Qed.

Lemma within_stop S s : s ∈ S → within S (stop_command s).
Proof. intros Hs. right. exists s. split; [done | by right]. Qed.

Lemma within_ps S : within S ps_command.
Proof. by left. Qed.

(** What one turn logs stays within the services, as long as the stopped
    set does. *)
Lemma turn_within args l w :
  stopped_services l ⊆ services args →
  ∃ evs, output (iteration args l w).2 = (output w ++ evs)%list
         ∧ Forall (within (services args)) evs.
Proof.
  intros Hsub.
  destruct (iteration_iterated args l w) as [s _ Hs|s _ _ Hs|_ _];
    cbn [snd]; (eexists; split; [reflexivity|]); apply Forall_app; split;
    auto using within_sleep_events, within_report_events.
  - rewrite !Forall_cons, Forall_nil.
    split_and!; [done | by apply within_start, Hsub | done | apply within_ps | done].
  - rewrite !Forall_cons, Forall_nil.
    split_and!; [done | | done | apply within_ps | done].
    apply within_stop. unfold available_services in Hs. set_solver.
Qed.

Lemma main_log_within args n w :
  ∃ evs, output (main args n w).2 = (output w ++ evs)%list
         ∧ Forall (within (services args)) evs.
Proof.
  set (Log := λ w', ∃ evs, output w' = (output w ++ evs)%list
                           ∧ Forall (within (services args)) evs).
  set (Inv := λ (l : locals) w', stopped_services l ⊆ services args ∧ Log w').
  assert (Log (main args n w).2) as (evs & Hout & Hevs).
  { pose proof (loop_invariant args Inv Log (λ l w' H, proj2 H)) as Hloop.
    unfold main.
    lapply Hloop.
    - intros Hrun. specialize (Hrun n initial w).
      destruct (loop args n initial w) as [[l'|e] w']; cbn [snd]; apply Hrun.
      all: split; [set_solver|]; exists []; by rewrite app_nil_r.
    - intros l w1 [Hsub (evs & Hout & Hevs)].
      destruct (turn_within args l w1 Hsub) as (evs' & Hout' & Hevs').
      assert (Log (iteration args l w1).2) as Hlog.
      { exists (evs ++ evs')%list. rewrite Hout', Hout, app_assoc.
        split; [done | by apply Forall_app]. }
      destruct (iteration args l w1) as [[l1|e] w2] eqn:Hit; [|done].
      split; [|done]. by eapply iteration_keeps_subset. }
  by exists evs.
Qed.

(** X3.  No command but the three of the script, and only the configured
    services: whatever the draws and the exit codes, every external command
    that [main] has issued after any number of turns, also in a run that an
    exception ends, is the status command or the start or stop command of
    a member of [services].  The log only grows: what was logged before the
    run is still its beginning. *)
Theorem commands_stay_within_services args n w :
  output (main args n w).2 = (output w ++ logged_since w (main args n w).2)%list
  ∧ Forall (within (services args)) (logged_since w (main args n w).2).
Proof.
  destruct (main_log_within args n w) as (evs & Hout & Hevs).
  by rewrite (logged_since_app _ _ _ Hout).
Qed.

(** X4.  The script as a whole: the first thing it logs is the line with its
    arguments, and every external command after that is the status command
    or the start or stop command of a parsed service: of one of the three
    nodes when [--services] is absent, of one of the names of its value
    when it is given. *)
Theorem script_commands_stay_within_services cl n w :
  ∃ evs,
    logged_since w (script cl n w).2 = PrintArgs (parse_args cl) :: evs
    ∧ Forall (within (services (parse_args cl))) evs
    ∧ (opt_services cl = None → Forall (within {["node1"; "node2"; "node3"]}) evs)
    ∧ (∀ s, opt_services cl = Some s → Forall (within (services_type s)) evs).
Proof.
  destruct (main_log_within (parse_args cl) n
              (advance w 0 0 [PrintArgs (parse_args cl)])) as (evs & Hout & Hevs).
  exists evs. split_and!.
  - apply logged_since_app.
    change (script cl n w)
      with (main (parse_args cl) n (advance w 0 0 [PrintArgs (parse_args cl)])).
    rewrite Hout. simpl. by rewrite <- app_assoc.
  - done.
  - intros Hnone. unfold parse_args in Hevs. by rewrite Hnone in Hevs.
  - intros s Hsome. unfold parse_args in Hevs. by rewrite Hsome in Hevs.
Qed.

Lemma script_commands_stay_within_services_witness :
  ∃ evs,
    logged_since quiet_world (script services_only 4 quiet_world).2
    = PrintArgs (parse_args services_only) :: evs
    ∧ Forall (within (services_type "node1, node3")) evs.
Proof.
  destruct (script_commands_stay_within_services services_only 4 quiet_world)
    as (evs & Hlog & _ & _ & Hgiven).
  exists evs. split; [exact Hlog|]. by apply Hgiven.
Defined.

(** ** The stopped set and the log *)

Lemma replay_app evs evs' X : replay (evs ++ evs') X = replay evs' (replay evs X).
Proof. apply foldl_app. Qed.

Lemma replay_sleep_events t X : replay (sleep_events t) X = X.
Proof. unfold sleep_events. by destruct (sleep_error t). Qed.

Lemma replay_report_events args l X : replay (report_events args l) X = X.
Proof. unfold report_events. by destruct (print_ps l). Qed.

Lemma replay_cons e evs X : replay (e :: evs) X = replay evs (replay_event X e).
Proof. reflexivity. Qed.

Ltac replay_events :=
  rewrite ?replay_app, ?replay_cons, ?replay_sleep_events,
    ?replay_report_events;
  cbn [replay foldl replay_event subcommand start_command stop_command
       ps_command DOCKER_BASE_COMMAND app length drop
       String.eqb Ascii.eqb Bool.eqb].

Lemma size_add (X : gset string) (s : string) :
  s ∉ X → size ({[s]} ∪ X) = S (size X).
Proof.
  intros Hs. rewrite size_union by set_solver. by rewrite size_singleton.
Qed.

(** One completed turn: the new stopped set is the old one with the
    commands of the turn replayed on it, and the stop commands and the
    start commands of the turn differ by what the set has gained. *)
Lemma turn_ledger args l w l' w' :
  iteration args l w = (Ok l', w') →
  ∃ evs, output w' = (output w ++ evs)%list
         ∧ stopped_services l' = replay evs (stopped_services l)
         ∧ stops w' + starts w + size (stopped_services l)
           = stops w + starts w' + size (stopped_services l').
Proof.
  intros Hrun. pose proof (iteration_iterated args l w) as Hit.
  rewrite Hrun in Hit.
  inversion Hit as [s _ Hs Hfin|s _ _ Hs Hfin|_ _ Hfin];
    apply finish_ok in Hfin; subst l'; (eexists; split; [reflexivity|]);
    replay_events; count_events; cbn [stopped_services].
  - split; [reflexivity|]. rewrite (size_remove _ _ Hs). lia.
  - split; [reflexivity|]. rewrite size_add; [lia|].
    unfold available_services in Hs. set_solver.
  - split; [done|].
    unfold report_events. destruct (print_ps l); count_events; lia.
Qed.

(** X5.  The stopped set is the driver's own ledger of its commands.  After a
    run of any number of completed turns, from any locals, the stopped set
    is the one at the start with the start and stop commands logged during
    the run replayed on it in order (a stop adds its service, a start takes
    it out); and the stop commands of the run exceed its start commands by
    exactly what the stopped set has gained.  No service is stopped while
    it is in the stopped set, none is started while it is out of it. *)
Theorem stopped_set_replays_the_log args n l w l' w' :
  loop args n l w = (Ok l', w') →
  stopped_services l' = replay (logged_since w w') (stopped_services l)
  ∧ stops w' + starts w + size (stopped_services l)
    = stops w + starts w' + size (stopped_services l').
Proof.
  intros Hrun.
  set (Inv := λ (l1 : locals) w1,
         ∃ evs, output w1 = (output w ++ evs)%list
                ∧ stopped_services l1 = replay evs (stopped_services l)
                ∧ stops w1 + starts w + size (stopped_services l)
                  = stops w + starts w1 + size (stopped_services l1)).
  pose proof (loop_invariant args Inv (λ _, True) (λ _ _ _, I)) as Hloop.
  lapply Hloop.
  - intros Hinv. specialize (Hinv n l w). rewrite Hrun in Hinv.
    destruct Hinv as (evs & Hout & Hreplay & Hledger).
    { exists []. rewrite app_nil_r. split_and!; [done | done | lia]. }
    by rewrite (logged_since_app _ _ _ Hout).
  - intros l1 w1 (evs & Hout & Hreplay & Hledger).
    destruct (iteration args l1 w1) as [[l2|e] w2] eqn:Hit; [|done].
    destruct (turn_ledger args l1 w1 l2 w2 Hit) as (evs' & Hout' & Hreplay' & Hledger').
    exists (evs ++ evs')%list. rewrite Hout', Hout, app_assoc, replay_app, <- Hreplay.
    split_and!; [done | done | lia].
Qed.

Lemma stopped_set_replays_the_log_witness :
  let w' := (loop restarting 3 initial quiet_world).2 in
  stopped_services node1_stopped = replay (logged_since quiet_world w') ∅
  ∧ stops w' + starts quiet_world + size (stopped_services initial)
    = stops quiet_world + starts w' + size (stopped_services node1_stopped).
Proof.
  apply (stopped_set_replays_the_log restarting 3 initial quiet_world
           node1_stopped (loop restarting 3 initial quiet_world).2).
  vm_compute. reflexivity.
Defined.

(** ** Reports and sleeps *)

(** The counts of one completed turn. *)
Lemma turn_counts args l w l' w' :
  iteration args l w = (Ok l', w') →
  ∃ acted : bool,
    starts w' + stops w' = starts w + stops w + (if acted then 1 else 0)
    ∧ status_listings w'
      = status_listings w + (if acted || print_ps l then 1 else 0)
    ∧ idle_messages w'
      = idle_messages w + (if acted || print_ps l then 0 else 1)
    ∧ sleeps w' = sleeps w + 1
    ∧ print_ps l' = false.
Proof.
  intros Hrun.
  assert (sleep_error (sleep_time args) = None) as Hsleep.
  { destruct (sleep_error (sleep_time args)) as [e|] eqn:Hsleep; [|done].
    apply (iteration_raises args l w) in Hsleep. rewrite Hrun in Hsleep. done. }
  pose proof (turn_sleeps args l w) as Hs. rewrite Hrun, Hsleep in Hs.
  cbn [snd] in Hs.
  pose proof (flag_down_after_turn args l w l' w' Hrun) as Hflag.
  enough (∃ acted : bool,
    starts w' + stops w' = starts w + stops w + (if acted then 1 else 0)
    ∧ status_listings w'
      = status_listings w + (if acted || print_ps l then 1 else 0)
    ∧ idle_messages w'
      = idle_messages w + (if acted || print_ps l then 0 else 1))
    as (acted & ? & ? & ?) by (by exists acted).
  clear Hs Hflag.
  pose proof (iteration_iterated args l w) as Hit. rewrite Hrun in Hit.
  inversion Hit as [s _ _ Hfin|s _ _ _ Hfin|_ _ Hfin].
  - exists true. count_events. simpl. split_and!; [lia | done | done].
  - exists true. count_events. simpl. split_and!; [lia | done | done].
  - exists false. count_events. unfold report_events.
    destruct (print_ps l); count_events; simpl; split_and!; try done; lia.
Qed.

(** X6.  Every completed turn reports once and sleeps once.  After a run of [n]
    completed turns, from any locals, the status commands and the idle
    messages logged during the run are [n] together, and so are the sleeps.
    Each start or stop command is followed by a status command in its own
    turn, and a status command is issued without one only in a turn that
    begins with the flag [print_ps] up, which only the very first turn of
    [main] does: the status commands of the run are as many as its start
    and stop commands, or one more. *)
Theorem one_report_and_one_sleep_per_turn args n : ∀ l w l' w',
  loop args n l w = (Ok l', w') →
  status_listings w' + idle_messages w'
  = status_listings w + idle_messages w + n
  ∧ sleeps w' = sleeps w + n
  ∧ starts w' + stops w' + status_listings w
    ≤ status_listings w' + (starts w + stops w)
  ∧ status_listings w' + (starts w + stops w)
    ≤ starts w' + stops w' + status_listings w
      + (if print_ps l then 1 else 0).
Proof.
  induction n as [|n IH]; intros l w l' w' Hrun.
  - injection Hrun as <- <-. split_and!; lia.
  - rewrite loop_S in Hrun.
    destruct (iteration args l w) as [[l1|e] w1] eqn:Hit; [|done].
    destruct (turn_counts args l w l1 w1 Hit)
      as (acted & Hact & Hlist & Hidle & Hsleeps & Hflag).
    destruct (IH l1 w1 l' w' Hrun) as (Hrep & Hsl & Hlo & Hhi).
    rewrite Hflag in Hhi.
    destruct acted, (print_ps l); simpl in *; split_and!; lia.
Qed.

Lemma one_report_and_one_sleep_per_turn_witness :
  let w' := (loop restarting 3 initial quiet_world).2 in
  status_listings w' + idle_messages w'
  = status_listings quiet_world + idle_messages quiet_world + 3
  ∧ sleeps w' = sleeps quiet_world + 3
  ∧ starts w' + stops w' + status_listings quiet_world
    ≤ status_listings w' + (starts quiet_world + stops quiet_world)
  ∧ status_listings w' + (starts quiet_world + stops quiet_world)
    ≤ starts w' + stops w' + status_listings quiet_world
      + (if print_ps initial then 1 else 0).
Proof.
  apply (one_report_and_one_sleep_per_turn restarting 3 initial quiet_world
           node1_stopped (loop restarting 3 initial quiet_world).2).
  vm_compute. reflexivity.
Defined.

(** ** Chances out of range *)

Lemma random_never (n : N) (c : pyfloat) :
  never_fires c → float_lt (random_value n) c = false.
Proof.
  destruct (random_value_range n) as (r & -> & Hr0 & _).
  destruct c as [q| | |]; simpl; try done. intros Hq.
  apply Qlt_bool_false. by apply (Qle_trans _ 0).
Qed.

Lemma random_always (n : N) (c : pyfloat) :
  always_fires c → float_lt (random_value n) c = true.
Proof.
  destruct (random_value_range n) as (r & -> & _ & Hr1).
  destruct c as [q| | |]; simpl; try done. intros Hq.
  apply Qlt_bool_true. by eapply Qlt_le_trans.
Qed.

Lemma start_test_never args l w :
  never_fires (starting_chance args) → start_test args l w = false.
Proof.
  intros Hc. unfold start_test. rewrite (random_never _ _ Hc). apply andb_false_r.
Qed.

Lemma stop_test_never args l w :
  never_fires (stopping_chance args) → stop_test args l w = false.
Proof.
  intros Hc. unfold stop_test. rewrite (random_never _ _ Hc). apply andb_false_r.
Qed.

Lemma stop_test_always args l w :
  always_fires (stopping_chance args) →
  stop_test args l w = truthy (available_services args l).
Proof.
  intros Hc. unfold stop_test. rewrite (random_always _ _ Hc). apply andb_true_r.
Qed.

Section DeadStoppingChance.
Context (args : Namespace).
Hypothesis Hdead : never_fires (stopping_chance args).

(** X7.  A stopping chance that is zero, negative, minus infinity or nan never
    fires, and then nothing ever happens, whatever the starting chance: as
    no service is ever stopped, the start test finds the stopped set empty
    in every turn.  After any number of turns of [main] no start and no
    stop command has been issued and the stopped set is empty. *)
Theorem dead_stopping_chance_does_nothing n w :
  starts (main args n w).2 = starts w
  ∧ stops (main args n w).2 = stops w
  ∧ ∀ l, (main args n w).1 = Ok l → stopped_services l = ∅.
Proof.
  set (Log := λ w', starts w' = starts w ∧ stops w' = stops w).
  set (Inv := λ (l : locals) w', stopped_services l = ∅ ∧ Log w').
  pose proof (loop_invariant args Inv Log (λ l w' H, proj2 H)) as Hloop.
  lapply Hloop.
  - intros Hrun. specialize (Hrun n initial w). unfold main.
    destruct (loop args n initial w) as [[l'|e] w']; cbn [fst snd].
    + destruct Hrun as (Hempty & Hstarts & Hstops); [by split|].
      split_and!; [done | done |]. by intros l [= <-].
    + destruct Hrun as (Hstarts & Hstops); [by split|].
      split_and!; [done | done | done].
  - intros l w1 (Hempty & Hstarts & Hstops).
    destruct (idle_turn args l w1) as (Hfin & Hstarts' & Hstops' & _);
      [by apply start_test_nothing_stopped | by apply stop_test_never|].
    destruct (iteration args l w1) as [[l1|e] w2]; cbn [fst snd] in *.
    + symmetry in Hfin. apply finish_ok in Hfin. subst l1.
      split; [done|]. split; congruence.
    + split; congruence.
Qed.
End DeadStoppingChance.

Lemma dead_stopping_chance_does_nothing_witness :
  starts (main stillborn 6 quiet_world).2 = starts quiet_world
  ∧ stops (main stillborn 6 quiet_world).2 = stops quiet_world
  ∧ ∀ l, (main stillborn 6 quiet_world).1 = Ok l → stopped_services l = ∅.
Proof.
  apply (dead_stopping_chance_does_nothing stillborn). exact I.
Defined.

(** A turn in which the start test fails and the stop test holds. *)
Lemma stopping_turn args l w :
  start_test args l w = false →
  stop_test args l w = true →
  ∃ s, s ∈ available_services args l
       ∧ (iteration args l w).1 = finish args ({[s]} ∪ stopped_services l)
       ∧ starts (iteration args l w).2 = starts w
       ∧ stops (iteration args l w).2 = stops w + 1.
Proof.
  intros Hstart Hstop.
  destruct (iteration_iterated args l w) as [s Hstart' _|s _ _ Hs|_ Hstop'];
    [congruence| |congruence].
  exists s. cbn [fst snd]. count_events. done.
Qed.

Lemma nothing_available args l :
  stopped_services l ⊆ services args →
  truthy (available_services args l) = false →
  stopped_services l = services args.
Proof.
  intros Hsub Hnone. unfold truthy in Hnone.
  apply bool_decide_eq_false in Hnone.
  destruct (decide (available_services args l = ∅)) as [Hempty|]; [|done].
  unfold available_services in Hempty.
  apply set_eq. intros x. split; [by apply Hsub|]. intros Hx.
  destruct (decide (x ∈ stopped_services l)); [done|]. set_solver.
Qed.

Section Exhaustion.
Context (args : Namespace).
Hypothesis Hstop : always_fires (stopping_chance args).
Hypothesis Hstart : never_fires (starting_chance args).

Lemma exhausting_loop n : ∀ l w l' w',
  stopped_services l ⊆ services args →
  loop args n l w = (Ok l', w') →
  stopped_services l ⊆ stopped_services l'
  ∧ stopped_services l' ⊆ services args
  ∧ size (stopped_services l')
    = (size (stopped_services l) + n) `min` size (services args)
  ∧ stops w' + size (stopped_services l) = stops w + size (stopped_services l')
  ∧ starts w' = starts w.
Proof.
  induction n as [|n IH]; intros l w l' w' Hsub Hrun.
  - injection Hrun as <- <-. apply subseteq_size in Hsub as Hsize.
    split_and!; [done | done | lia | lia | done].
  - rewrite loop_S in Hrun.
    pose proof (start_test_never args l w Hstart) as Hst.
    pose proof (stop_test_always args l w Hstop) as Hsp.
    destruct (truthy (available_services args l)) eqn:Havail.
    + destruct (stopping_turn args l w Hst Hsp) as (s & Hs & Hfin & Hstarts & Hstops).
      destruct (iteration args l w) as [[l1|e] w1]; [|done]. cbn [fst snd] in *.
      symmetry in Hfin. apply finish_ok in Hfin. subst l1.
      unfold available_services in Hs.
      destruct (IH (Locals ({[s]} ∪ stopped_services l) false) w1 l' w')
        as (Hgrow & Hsub' & Hsize & Hstops' & Hstarts'); [set_solver | done |].
      cbn [stopped_services] in *. rewrite size_add in Hsize, Hstops' by set_solver.
      split_and!; [set_solver | done | lia | lia | congruence].
    + destruct (idle_turn args l w Hst Hsp) as (Hfin & Hstarts & Hstops & _).
      destruct (iteration args l w) as [[l1|e] w1]; [|done]. cbn [fst snd] in *.
      symmetry in Hfin. apply finish_ok in Hfin. subst l1.
      destruct (IH (Locals (stopped_services l) false) w1 l' w')
        as (Hgrow & Hsub' & Hsize & Hstops' & Hstarts'); [done | done |].
      cbn [stopped_services] in *.
      rewrite (nothing_available args l Hsub Havail) in Hsize, Hstops', Hgrow |- *.
      split_and!; [done | done | lia | lia | congruence].
Qed.

(** X8.  With a stopping chance that always fires (1 or more, or infinity) and a
    starting chance that never does, the loop stops one more service in
    every turn until none is left, and then idles for good: after [n]
    completed turns of [main] exactly [min n (size services)] services are
    stopped, as many stop commands and no start command have been issued,
    and from the turn on that stops the last service the stopped set is the
    whole of [services]. *)
Theorem every_service_ends_up_stopped n w l' w' :
  main args n w = (Ok l', w') →
  size (stopped_services l') = n `min` size (services args)
  ∧ stops w' = stops w + n `min` size (services args)
  ∧ starts w' = starts w
  ∧ (size (services args) ≤ n → stopped_services l' = services args).
Proof.
  intros Hrun.
  destruct (exhausting_loop n initial w l' w') as (_ & Hsub & Hsize & Hstops & Hstarts);
    [set_solver | done |].
  cbn [initial stopped_services] in *. rewrite size_empty in *.
  split_and!; [done | lia | done |].
  intros Hn. apply set_subseteq_size_eq; [done | lia].
Qed.
End Exhaustion.

Lemma every_service_ends_up_stopped_witness :
  let w' := (main relentless 5 quiet_world).2 in
  (main relentless 5 quiet_world).1 = Ok (Locals ALL_SERVICES false)
  ∧ size (stopped_services (Locals ALL_SERVICES false))
    = 5 `min` size (services relentless)
  ∧ stops w' = stops quiet_world + 5 `min` size (services relentless)
  ∧ starts w' = starts quiet_world
  ∧ stopped_services (Locals ALL_SERVICES false) = services relentless.
Proof.
  assert (always_fires (stopping_chance relentless)) as Hstop by (by vm_compute).
  assert (never_fires (starting_chance relentless)) as Hstart by (by vm_compute).
  destruct (every_service_ends_up_stopped relentless Hstop Hstart 5 quiet_world
              (Locals ALL_SERVICES false) (main relentless 5 quiet_world).2)
    as (Hsize & Hstops & Hstarts & Hall); [vm_compute; reflexivity|].
  split_and!; [vm_compute; reflexivity | done | done | done |].
  apply Hall. vm_compute. lia.
Defined.

(** ** The log and the exit codes *)

Lemma blind_ret {A} (a : A) : exit_code_blind (ret a).
Proof. by intros w1 w2 H. Qed.

Lemma blind_raise {A} (e : exn) : exit_code_blind (raise (A:=A) e).
Proof. by intros w1 w2 H. Qed.

Lemma blind_emit e : exit_code_blind (emit e).
Proof.
  intros w1 w2 [Hd Ho]. unfold emit, same_draws_and_log. simpl. by rewrite Ho.
Qed.

Lemma blind_next_draw : exit_code_blind next_draw.
Proof.
  intros w1 w2 [[Hd Hn] Ho]. unfold next_draw, same_draws_and_log, same_draws.
  simpl. by rewrite Hn, Hd, Ho.
Qed.

Lemma blind_bind {A B} (m : M A) (k : A → M B) :
  exit_code_blind m → (∀ a, exit_code_blind (k a)) →
  exit_code_blind (do x <- m; k x).
Proof.
  intros Hm Hk w1 w2 Hw. rewrite !bind_run.
  destruct (Hm w1 w2 Hw) as [Hr Hw'].
  destruct (m w1) as [[a1|e1] w1'], (m w2) as [[a2|e2] w2']; simpl in *;
    try discriminate.
  - injection Hr as ->. by apply Hk.
  - by injection Hr as ->.
Qed.

(** The command is logged, its exit code is dropped. *)
Lemma blind_call_discarded {B} argv (k : M B) :
  exit_code_blind k → exit_code_blind (do _ <- subprocess_call argv; k).
Proof.
  intros Hk w1 w2 [Hd Ho]. rewrite !bind_run, !subprocess_call_run.
  apply Hk. split; [done|]. simpl. by rewrite Ho.
Qed.

Lemma blind_if {A} (b : bool) (m1 m2 : M A) :
  exit_code_blind m1 → exit_code_blind m2 →
  exit_code_blind (if b then m1 else m2).
Proof. by destruct b. Qed.

Create HintDb blind.
#[local] Hint Resolve blind_ret blind_raise blind_emit blind_next_draw
  blind_bind blind_call_discarded blind_if : blind.

Lemma blind_iteration args l : exit_code_blind (iteration args l).
Proof.
  unfold iteration, decide_action, report, and_draw_below, random_random,
    set_remove, time_sleep.
  apply blind_bind.
  - apply blind_bind; [eauto 8 with blind|]. intros start.
    apply blind_if.
    + apply blind_bind.
      { unfold random_choice. destruct (elements _); eauto with blind. }
      eauto 10 with blind.
    + apply blind_bind; [eauto 8 with blind|]. intros stop.
      apply blind_if; [|eauto with blind].
      apply blind_bind.
      { unfold random_choice. destruct (elements _); eauto with blind. }
      eauto 10 with blind.
  - intros l1. apply blind_bind; [eauto 10 with blind|]. intros l2.
    apply blind_bind; [|eauto with blind].
    destruct (sleep_error (sleep_time args)); eauto with blind.
Qed.

Lemma blind_loop args n : ∀ l, exit_code_blind (loop args n l).
Proof.
  induction n as [|n IH]; intros l; simpl;
    eauto using blind_iteration with blind.
Qed.

(** X9.  A failed command changes nothing in what follows.  Two runs of [main]
    that get the same random draws log the same events in the same order,
    the same commands among them, and end in the same way, whatever exit
    codes the commands return in either run. *)
Theorem exit_codes_do_not_change_the_log args n w1 w2 :
  (∀ k, draws w1 k = draws w2 k) →
  drawn w1 = drawn w2 →
  output w1 = output w2 →
  output (main args n w1).2 = output (main args n w2).2
  ∧ (main args n w1).1 = (main args n w2).1.
Proof.
  intros Hd Hn Ho.
  destruct (blind_loop args n initial w1 w2) as (Hr & _ & Ho'); [done|].
  by split.
Qed.

Lemma exit_codes_do_not_change_the_log_witness :
  output (main restarting 4 quiet_world).2
  = output (main restarting 4 failing_world).2
  ∧ (main restarting 4 quiet_world).1 = (main restarting 4 failing_world).1.
Proof.
  apply (exit_codes_do_not_change_the_log restarting 4 quiet_world failing_world).
  - intros k. reflexivity.
  - reflexivity.
  - reflexivity.
Defined.

(** * Further properties of the [--services] option *)

Lemma has_char_append c a b :
  has_char c (String.append a b) = has_char c a || has_char c b.
Proof.
  induction a as [|c' a IH]; [done|].
  rewrite append_cons. simpl. by rewrite IH, orb_assoc.
Qed.

Lemma str_split_no_sep_whole sep a :
  has_char sep a = false → str_split sep a = [a].
Proof.
  induction a as [|c a IH]; [done|]. simpl.
  intros [Hc Ha]%orb_false_iff. by rewrite Hc, IH.
Qed.

Lemma str_split_append sep a b :
  has_char sep a = false →
  str_split sep (String.append a (String sep b)) = a :: str_split sep b.
Proof.
  induction a as [|c a IH].
  - intros _. change (String.append EmptyString (String sep b)) with (String sep b).
    simpl. by rewrite Ascii.eqb_refl.
  - rewrite append_cons. simpl. intros [Hc Ha]%orb_false_iff.
    by rewrite Hc, IH.
Qed.

(** Splitting undoes joining, for pieces that hold no separator. *)
Lemma str_split_join sep (pieces : list string) :
  pieces ≠ [] →
  Forall (λ piece, has_char sep piece = false) pieces →
  str_split sep (str_join sep pieces) = pieces.
Proof.
  induction pieces as [|piece pieces IH]; [done|]. intros _ Hall.
  apply Forall_cons in Hall as [Hpiece Hall].
  destruct pieces as [|piece' pieces].
  - by apply str_split_no_sep_whole.
  - change (str_join sep (piece :: piece' :: pieces))
      with (String.append piece (String sep (str_join sep (piece' :: pieces)))).
    rewrite str_split_append by done. by rewrite IH.
Qed.

Lemma str_lstrip_clean x : starts_with_space x = false → str_lstrip x = x.
Proof. destruct x as [|c x]; [done|]. simpl. by intros ->. Qed.

Lemma str_rstrip_clean x : ends_with_space x = false → str_rstrip x = x.
Proof.
  induction x as [|c x IH]; [done|]. destruct x as [|a x].
  - simpl. by intros ->.
  - intros Hend. change (ends_with_space (String a x) = false) in Hend.
    change (str_rstrip (String c (String a x)))
      with (match str_rstrip (String a x) with
            | EmptyString => if isspace c then EmptyString else String c EmptyString
            | r => String c r
            end).
    by rewrite IH.
Qed.

Lemma str_strip_clean x :
  starts_with_space x = false → ends_with_space x = false → str_strip x = x.
Proof.
  intros Hstart Hend. unfold str_strip.
  by rewrite str_lstrip_clean, str_rstrip_clean.
Qed.

Lemma fmap_str_strip_clean (names : list string) :
  Forall clean_name names → str_strip <$> names = names.
Proof.
  intros Hclean. apply list_eq. intros i. rewrite list_lookup_fmap.
  destruct (names !! i) as [x|] eqn:Hx; [|done]. simpl. f_equal.
  destruct (proj1 (Forall_lookup _ _) Hclean i x Hx) as (_ & Hstart & Hend).
  by apply str_strip_clean.
Qed.

Lemma clean_names_no_comma (names : list string) :
  Forall clean_name names →
  Forall (λ piece, has_char "," piece = false) names.
Proof.
  intros Hclean. eapply Forall_impl; [exact Hclean|]. by intros x [Hcomma _].
Qed.

(** X10.  Names written with commas between them are read back as they are:
    for a list of names, not empty, none of which holds a comma or begins
    or ends with white space, the value of [--services] on the names joined
    by commas is the set of these names. *)
Theorem services_type_of_joined_names (names : list string) :
  names ≠ [] →
  Forall clean_name names →
  services_type (str_join "," names) = list_to_set names.
Proof.
  intros Hnil Hclean. unfold services_type.
  rewrite str_split_join by (done || by apply clean_names_no_comma).
  by rewrite fmap_str_strip_clean.
Qed.

Lemma services_type_of_joined_names_witness :
  services_type (str_join "," ["node3"; "node 1"; "node3"])
  = list_to_set ["node3"; "node 1"; "node3"].
Proof.
  apply services_type_of_joined_names; [done|].
  repeat (apply Forall_cons_2; [by vm_compute|]). apply Forall_nil_2.
Defined.

Lemma services_type_elements_not_nil s : elements (services_type s) ≠ [].
Proof.
  pose proof (str_split_not_nil "," s) as Hnil.
  destruct (str_split "," s) as [|piece pieces] eqn:Hsplit; [done|].
  intros Hempty.
  assert (str_strip piece ∈ elements (services_type s)) as Hin.
  { apply elem_of_elements, elem_of_services_type. exists piece.
    rewrite Hsplit. split; [by left | done]. }
  rewrite Hempty in Hin. by apply elem_of_nil in Hin.
Qed.

Lemma str_strip_no_char c piece :
  has_char c piece = false → has_char c (str_strip piece) = false.
Proof.
  destruct (str_strip_spec piece) as ((pre & post & Hpiece & _) & _).
  rewrite Hpiece at 1. rewrite !has_char_append.
  by intros [_ [? _]%orb_false_iff]%orb_false_iff.
Qed.

Lemma services_type_clean s x : x ∈ services_type s → clean_name x.
Proof.
  intros (piece & Hpiece & ->)%elem_of_services_type.
  destruct (str_strip_spec piece) as (_ & Hstart & Hend).
  split_and!; [|done|done].
  by eapply str_strip_no_char, str_split_no_sep.
Qed.

(** X11.  The names that [--services] yields are clean: none holds a comma and
    none begins or ends with white space, so the white space around the
    commas of the option is of no account.  Writing the names of the set
    with commas between them and reading that back gives the same set. *)
Theorem services_type_names_are_clean s :
  (∀ x, x ∈ services_type s → clean_name x)
  ∧ services_type (str_join "," (elements (services_type s))) = services_type s.
Proof.
  split; [apply services_type_clean|].
  assert (Forall clean_name (elements (services_type s))) as Hclean.
  { apply Forall_forall. intros x Hx%elem_of_elements.
    by eapply services_type_clean. }
  unfold services_type at 1.
  rewrite str_split_join
    by (apply services_type_elements_not_nil || by apply clean_names_no_comma).
  rewrite fmap_str_strip_clean by done.
  apply list_to_set_elements_L.
Qed.

Lemma services_type_names_are_clean_witness :
  clean_name "node2"
  ∧ services_type (str_join "," (elements (services_type " node1 ,node2 ")))
    = services_type " node1 ,node2 ".
Proof.
  destruct (services_type_names_are_clean " node1 ,node2 ") as [Hclean Hback].
  split; [|exact Hback].
  apply Hclean. by vm_compute.
Defined.

Lemma str_split_trailing sep s :
  ∃ piece pieces,
    str_split sep (String.append s (String sep EmptyString))
    = ((piece :: pieces) ++ [EmptyString])%list.
Proof.
  induction s as [|c s (piece & pieces & IH)].
  - exists EmptyString, []. simpl. by rewrite Ascii.eqb_refl.
  - rewrite append_cons. simpl. rewrite IH.
    destruct (Ascii.eqb c sep).
    + by exists EmptyString, (piece :: pieces).
    + by exists (String c piece), pieces.
Qed.

Lemma str_lstrip_all_space s : all_space s = true → str_lstrip s = EmptyString.
Proof.
  induction s as [|c s IH]; [done|]. simpl.
  intros [Hc Hs]%andb_true_iff. rewrite Hc. by apply IH.
Qed.

Lemma all_space_no_char c s :
  isspace c = false → all_space s = true → has_char c s = false.
Proof.
  intros Hc. induction s as [|c' s IH]; [done|]. simpl.
  intros [Hc' Hs]%andb_true_iff. rewrite IH by done.
  destruct (Ascii.eqb_spec c' c) as [->|]; [congruence | done].
Qed.

Lemma services_type_blank_piece s piece :
  piece ∈ str_split "," s → all_space piece = true →
  EmptyString ∈ services_type s.
Proof.
  intros Hpiece Hblank. apply elem_of_services_type. exists piece.
  split; [done|]. unfold str_strip. by rewrite str_lstrip_all_space.
Qed.

(** X12.  The empty name.  A comma at the end or at the beginning of the value
    of [--services], and in general a piece between commas that is empty
    or all white space, puts the empty name into the set; a value that is
    nothing but white space gives the set of the empty name alone.  The
    script does not reject the empty name: the loop will stop and start it
    as any other. *)
Theorem services_type_empty_name s :
  EmptyString ∈ services_type (String.append s ",")
  ∧ EmptyString ∈ services_type (String "," s)
  ∧ (∀ piece, piece ∈ str_split "," s → all_space piece = true →
       EmptyString ∈ services_type s)
  ∧ (all_space s = true → services_type s = {[EmptyString]}).
Proof.
  split_and!.
  - destruct (str_split_trailing "," s) as (piece & pieces & Hsplit).
    apply (services_type_blank_piece _ EmptyString); [|done].
    rewrite Hsplit. apply elem_of_app. right. by left.
  - apply (services_type_blank_piece _ EmptyString); [|done]. simpl. by left.
  - apply services_type_blank_piece.
  - intros Hblank. unfold services_type.
    rewrite str_split_no_sep_whole by (by apply all_space_no_char).
    simpl. unfold str_strip. rewrite str_lstrip_all_space by done.
    simpl. set_solver.
Qed.

Lemma services_type_empty_name_witness :
  EmptyString ∈ services_type "node1, ,node2"
  ∧ services_type "  " = {[EmptyString]}.
Proof.
  destruct (services_type_empty_name "node1, ,node2") as (_ & _ & Hpiece & _).
  destruct (services_type_empty_name "  ") as (_ & _ & _ & Hblank).
  split.
  - apply (Hpiece " "); [vm_compute; right; left | reflexivity].
  - apply Hblank. reflexivity.
Defined.

(** * What the choice can do *)

Lemma random_choice_at {A} (seq : list A) (w : world) (x : A) :
  seq !! N.to_nat (draws w (drawn w)) = Some x →
  random_choice seq w = (Ok x, advance w 1 0 []).
Proof.
  intros Hx. pose proof (lookup_lt_Some _ _ _ Hx) as Hlt.
  destruct seq as [|a seq]; [done|].
  unfold random_choice. rewrite bind_run. unfold next_draw, ret.
  rewrite Nat.mod_small by done. rewrite (nth_lookup_Some _ _ _ _ Hx).
  unfold advance. simpl. by rewrite app_nil_r.
Qed.

Lemma decide_action_start_at args l w s :
  start_test args l w = true →
  elements (stopped_services l) !! N.to_nat (draws w (1 + drawn w)) = Some s →
  decide_action args l w
  = (Ok (Locals (stopped_services l ∖ {[s]}) true),
     advance w 2 1 [PrintStarting s; start_command s]).
Proof.
  intros Hstart Hs. unfold decide_action.
  rewrite bind_run, and_draw_below_run.
  fold (start_test args l w). rewrite Hstart.
  assert (truthy (stopped_services l) = true) as ->
    by (unfold start_test in Hstart; by apply andb_true_iff in Hstart as [? _]).
  rewrite bind_run, (random_choice_at _ _ s) by done.
  rewrite bind_run, set_remove_run
    by (by eapply elem_of_elements, list_elem_of_lookup_2).
  rewrite bind_run, emit_run, bind_run, subprocess_call_run.
  unfold ret. by rewrite !advance_advance.
Qed.

Lemma decide_action_stop_at args l w s :
  start_test args l w = false →
  stop_test args l w = true →
  elements (available_services args l)
    !! N.to_nat (draws w (1 + (if truthy (stopped_services l) then 1 else 0)
                          + drawn w)) = Some s →
  decide_action args l w
  = (Ok (Locals ({[s]} ∪ stopped_services l) true),
     advance w (2 + (if truthy (stopped_services l) then 1 else 0)) 1
       [PrintStopping s; stop_command s]).
Proof.
  intros Hstart Hstop Hs. unfold decide_action.
  rewrite bind_run, and_draw_below_run.
  fold (start_test args l w). rewrite Hstart.
  rewrite bind_run, and_draw_below_run.
  change (drawn (advance w (if truthy (stopped_services l) then 1 else 0) 0 []))
    with ((if truthy (stopped_services l) then 1 else 0) + drawn w).
  change (draws (advance w (if truthy (stopped_services l) then 1 else 0) 0 []))
    with (draws w).
  fold (stop_test args l w). rewrite Hstop.
  assert (truthy (available_services args l) = true) as ->
    by (unfold stop_test in Hstop; by apply andb_true_iff in Hstop as [? _]).
  rewrite bind_run, (random_choice_at _ _ s).
  - rewrite bind_run, emit_run, bind_run, subprocess_call_run.
    unfold ret. by rewrite !advance_advance.
  - exact Hs.
Qed.

Lemma random_zero_fires c : may_fire c → float_lt (random_value 0) c = true.
Proof.
  destruct c as [q| | |]; simpl; try done. intros Hq.
  apply Qlt_bool_true. unfold Qlt in *. simpl in *. lia.
Qed.

Lemma random_top_fails c :
  may_fail c → float_lt (random_value (2 ^ 53 - 1)) c = false.
Proof.
  destruct c as [q| | |]; simpl; try done. intros Hq.
  apply Qlt_bool_false.
  apply (Qle_trans _ (1 - (1 # 2 ^ 53))); [exact Hq | by vm_compute].
Qed.

Lemma tape_from_world_of_draws ds : tape_from (world_of_draws ds) ds.
Proof.
  intros j d Hd. simpl. rewrite Nat.add_0_r. by apply nth_lookup_Some.
Qed.

Lemma tape_from_advance w k c evs ds1 ds2 :
  tape_from w (ds1 ++ ds2) → length ds1 = k →
  tape_from (advance w k c evs) ds2.
Proof.
  intros Htape <- j d Hd. simpl.
  rewrite Nat.add_assoc. apply Htape.
  rewrite lookup_app_r by lia. by replace (j + length ds1 - length ds1) with j by lia.
Qed.

Lemma tape_head w d ds : tape_from w (d :: ds) → draws w (drawn w) = d.
Proof. intros Htape. by apply (Htape 0). Qed.

(** X13.  Any stopped service can be the next one started.  If the starting
    chance can fire (it is positive, or infinity), then for every member of
    the stopped set there are draws for which the turn starts just that
    member: the choice leaves out no service. *)
Theorem any_stopped_service_can_be_started args l s :
  may_fire (starting_chance args) →
  s ∈ stopped_services l →
  ∃ ds, ∀ w, tape_from w ds →
    iteration args l w
    = (finish args (stopped_services l ∖ {[s]}),
       advance w 2 2
         ([PrintStarting s; start_command s; PrintPsStatus; ps_command]
          ++ sleep_events (sleep_time args))).
Proof.
  intros Hfire Hs.
  apply elem_of_elements, list_elem_of_lookup_1 in Hs as Hi. destruct Hi as [i Hi].
  exists [0%N; N.of_nat i]. intros w Htape.
  assert (start_test args l w = true) as Hstart.
  { unfold start_test. rewrite (tape_head _ _ _ Htape), random_zero_fires by done.
    rewrite truthy_true; [done | set_solver]. }
  assert (elements (stopped_services l) !! N.to_nat (draws w (1 + drawn w))
          = Some s) as Hidx
    by (rewrite (Htape 1 (N.of_nat i)) by done; by rewrite Nat2N.id).
  rewrite (iteration_run args l w _ _ (decide_action_start_at args l w s Hstart Hidx)).
  by rewrite advance_advance.
Qed.

Lemma any_stopped_service_can_be_started_witness :
  ∃ ds,
    iteration restarting both_stopped (world_of_draws ds)
    = (finish restarting (stopped_services both_stopped ∖ {["node2"]}),
       advance (world_of_draws ds) 2 2
         ([PrintStarting "node2"; start_command "node2"; PrintPsStatus; ps_command]
          ++ sleep_events (sleep_time restarting))).
Proof.
  destruct (any_stopped_service_can_be_started restarting both_stopped "node2")
    as [ds Hds].
  - by vm_compute.
  - by vm_compute; set_solver.
  - exists ds. apply Hds, tape_from_world_of_draws.
Defined.

(** Read the [j]-th draw in store off the tape. *)
Ltac read_tape Htape j :=
  let H := fresh in
  pose proof (Htape j _ eq_refl) as H;
  cbn [Nat.add] in H |- *; rewrite H; clear H.

Section Reach.
Context (args : Namespace).
Hypothesis Hfire : may_fire (stopping_chance args).
Hypothesis Hfail : may_fail (starting_chance args).
Hypothesis Hsleep : sleep_accepted (sleep_time args).

(** One turn that stops the chosen available service [x]. *)
Lemma stop_turn_for l x :
  x ∈ available_services args l →
  ∃ ds, ∀ w ds', tape_from w (ds ++ ds')%list →
    ∃ w', iteration args l w
          = (Ok (Locals ({[x]} ∪ stopped_services l) false), w')
          ∧ tape_from w' ds'
          ∧ stops w' = stops w + 1 ∧ starts w' = starts w.
Proof.
  intros Hx.
  assert (truthy (available_services args l) = true) as Havail
    by (apply truthy_true; set_solver).
  apply elem_of_elements, list_elem_of_lookup_1 in Hx as Hi. destruct Hi as [i Hi].
  exists ((if truthy (stopped_services l) then [(2 ^ 53 - 1)%N] else [])
          ++ [0%N; N.of_nat i])%list.
  intros w ds' Htape.
  assert (start_test args l w = false) as Hstart.
  { unfold start_test. destruct (truthy (stopped_services l)); [|done].
    read_tape Htape 0. by rewrite random_top_fails. }
  assert (stop_test args l w = true) as Hstop.
  { unfold stop_test. rewrite Havail.
    destruct (truthy (stopped_services l)).
    - read_tape Htape 1. by rewrite random_zero_fires.
    - read_tape Htape 0. by rewrite random_zero_fires. }
  assert (elements (available_services args l)
            !! N.to_nat (draws w (1 + (if truthy (stopped_services l) then 1 else 0)
                                  + drawn w)) = Some x) as Hidx.
  { destruct (truthy (stopped_services l)).
    - read_tape Htape 2. by rewrite Nat2N.id.
    - read_tape Htape 1. by rewrite Nat2N.id. }
  rewrite (iteration_run args l w _ _
             (decide_action_stop_at args l w x Hstart Hstop Hidx)).
  unfold finish. rewrite (sleep_accepted_ok _ Hsleep), advance_advance.
  cbn [stopped_services].
  eexists. split; [reflexivity|]. split_and!.
  - eapply tape_from_advance; [exact Htape|].
    by destruct (truthy (stopped_services l)).
  - count_events. done.
  - count_events. done.
Qed.

Lemma stop_run_for xs : ∀ l,
  NoDup xs →
  (∀ x, x ∈ xs → x ∈ services args ∧ x ∉ stopped_services l) →
  ∃ ds, ∀ w, tape_from w ds →
    ∃ l' w', loop args (length xs) l w = (Ok l', w')
             ∧ stopped_services l' = list_to_set xs ∪ stopped_services l
             ∧ stops w' = stops w + length xs ∧ starts w' = starts w.
Proof.
  induction xs as [|x xs IH]; intros l Hnodup Hxs.
  - exists []. intros w _. exists l, w. simpl.
    split_and!; [done | set_solver | lia | done].
  - apply NoDup_cons in Hnodup as [Hx Hnodup].
    destruct (stop_turn_for l x) as [ds1 Hturn].
    { unfold available_services. destruct (Hxs x); [by left|]. set_solver. }
    destruct (IH (Locals ({[x]} ∪ stopped_services l) false) Hnodup) as [ds2 Hrun].
    { intros y Hy. destruct (Hxs y) as [Hin Hout]; [by right|].
      split; [done|]. simpl. set_solver. }
    exists (ds1 ++ ds2)%list. intros w Htape.
    destruct (Hturn w ds2 Htape) as (w1 & Hit & Htape1 & Hstops & Hstarts).
    destruct (Hrun w1 Htape1) as (l' & w' & Hloop & Hstopped & Hstops' & Hstarts').
    exists l', w'. change (length (x :: xs)) with (S (length xs)).
    rewrite loop_S, Hit. simpl in Hstopped.
    split_and!; [done | | lia | congruence].
    rewrite Hstopped. simpl. set_solver.
Qed.

(** X14.  Every set of services can be brought down.  If the stopping
    chance can fire, the starting chance can fail (it is below 1) and the
    sleep time is one that [time.sleep] is sure to accept, then for every
    subset [X] of the services there
    are draws with which [main] has stopped exactly the members of [X]
    after [size X] turns, with one stop command per turn and no start
    command. *)
Theorem every_set_of_services_can_be_stopped X :
  X ⊆ services args →
  ∃ ds l' w',
    main args (size X) (world_of_draws ds) = (Ok l', w')
    ∧ stopped_services l' = X
    ∧ stops w' = size X ∧ starts w' = 0.
Proof.
  intros HX.
  destruct (stop_run_for (elements X) initial) as [ds Hrun].
  { apply NoDup_elements. }
  { intros x Hx%elem_of_elements. split; [by apply HX | set_solver]. }
  destruct (Hrun (world_of_draws ds) (tape_from_world_of_draws ds))
    as (l' & w' & Hloop & Hstopped & Hstops & Hstarts).
  exists ds, l', w'. split_and!; [done | | done | done].
  rewrite Hstopped, list_to_set_elements_L. simpl. set_solver.
Qed.
End Reach.

Lemma every_set_of_services_can_be_stopped_witness :
  ∃ ds l' w',
    main (parse_args no_options) 2 (world_of_draws ds) = (Ok l', w')
    ∧ stopped_services l' = {["node1"; "node3"]}
    ∧ stops w' = 2 ∧ starts w' = 0.
Proof.
  destruct (every_set_of_services_can_be_stopped (parse_args no_options))
    with (X := ({["node1"; "node3"]} : gset string))
    as (ds & l' & w' & Hrun);
    [by vm_compute | by vm_compute | split; by vm_compute | |].
  - apply (bool_decide_unpack _). by vm_compute.
  - by exists ds, l', w'.
Defined.
